(** * A shallow embedding of CLgen's atomizers ([clgen/atomizer.py]) and
    kernel driver ([clgen/cldrive.py]). *)

From Stdlib Require Import String.
From Stdlib Require Import List Ascii Arith ZArith QArith Lia Bool Sorted Permutation.
Import ListNotations.

(* ------------------------------------------------------------------ *)
(** ** Atomizers ([clgen/atomizer.py]) *)

Module Atomizer.

Local Open Scope nat_scope.

(** A Python [str] is a sequence of characters; atoms are strings too. *)
Definition str := list ascii.

Fixpoint str_eqb (a b : str) : bool :=
  match a, b with
  | [], [] => true
  | c :: a', d :: b' => Ascii.eqb c d && str_eqb a' b'
  | _, _ => false
  end.

(** [x.startswith(s)]: [s] is a prefix of [x]. *)
Fixpoint startswith (x s : str) : bool :=
  match s, x with
  | [], _ => true
  | c :: s', d :: x' => Ascii.eqb c d && startswith x' s'
  | _ :: _, [] => false
  end.

(** Python slicing [text[i:j]] on naturals: clamped at both ends, and
    empty when [j <= i]. *)
Definition slice (text : str) (i j : nat) : str :=
  firstn (j - i) (skipn i text).

(** A vocabulary is the [dict] of string -> integer mappings handed to
    [Atomizer.__init__], as its items in insertion order. *)
Definition Vocab := list (str * Z).

(** [self.vocab[k]]; [None] is the [KeyError]. *)
Fixpoint vocab_get (V : Vocab) (k : str) : option Z :=
  match V with
  | [] => None
  | (k', v) :: V' => if str_eqb k k' then Some v else vocab_get V' k
  end.

(** [self.decoder = dict((val, key) for key, val in vocab.items())]: a
    later item overwrites an earlier one, so a lookup finds the last
    inserted pair, i.e. the first one of the reversed item list. *)
Definition decoder (V : Vocab) : list (Z * str) :=
  rev (map (fun '(k, v) => (v, k)) V).

Definition decoder_get (V : Vocab) (n : Z) : option str :=
  match find (fun '(v, _) => Z.eqb v n) (decoder V) with
  | Some (_, k) => Some k
  | None => None
  end.

(** [list(map(f, xs))] where [f] may raise. *)
Fixpoint map_option {A B} (f : A -> option B) (l : list A) : option (list B) :=
  match l with
  | [] => Some []
  | x :: l' =>
      match f x, map_option f l' with
      | Some y, Some ys => Some (y :: ys)
      | _, _ => None
      end
  end.

(** [Atomizer.deatomize]: [''.join(map(decoder, encoded))]; a [KeyError]
    becomes [VocabError] ([None]). *)
Definition deatomize (V : Vocab) (encoded : list Z) : option str :=
  match map_option (decoder_get V) encoded with
  | Some atoms => Some (concat atoms)
  | None => None
  end.

(** [GreedyAtomizer.__init__]: [multichars] are the atoms longer than one
    character, and [self.lookup] maps a first character to the multi-character
    atoms that start with it.  [self.lookup.get(c)] is [None] when no
    multi-character atom starts with [c]. *)
Definition multichars (V : Vocab) : list str :=
  filter (fun k => 1 <? length k) (map fst V).

Definition lookup_get (V : Vocab) (c : ascii) : option (list str) :=
  match filter (fun a => match a with d :: _ => Ascii.eqb d c | [] => false end)
               (multichars V) with
  | [] => None
  | l => Some l
  end.

(** The scan of [GreedyAtomizer.atomize], over the lookup table and over
    the emission [self.vocab[...]] ([None] is the [KeyError]). *)
Section Scan.
Context {A : Type}.
Variable lookup : ascii -> option (list str).
Variable emit : str -> option A.
Variable text : str.

(** The inner [while j > i + 1: ... else: ...] loop: [inl j] when
    [text[i:j]] is one of the candidates (the [break]), [inr j] with the
    final [j] when the loop runs out. *)
Fixpoint shrink (cands : list str) (i j : nat) {struct j} : nat + nat :=
  match j with
  | 0 => inr 0
  | S j' =>
      if i + 1 <? j then
        if existsb (fun x => str_eqb x (slice text i (S j'))) cands
        then inl (S j')
        else shrink cands i j'
      else inr (S j')
  end.

(** The shrink phase and what follows it: emit the match and set [i = j],
    [j = j + 2]; otherwise emit [text[i]], [i = i + 1], [j = j + 2]. *)
Definition shrink_phase (cands : list str) (c : ascii) (i j : nat)
    (indices : list A) : option (nat * nat * list A) :=
  match shrink cands i j with
  | inl j' =>
      match emit (slice text i j') with
      | Some x => Some (j', j' + 2, indices ++ [x])
      | None => None
      end
  | inr j' =>
      match emit [c] with
      | Some x => Some (S i, j' + 2, indices ++ [x])
      | None => None
      end
  end.

(** One iteration of the outer [while i < len(text)] loop. *)
Definition body (i j : nat) (indices : list A) : option (nat * nat * list A) :=
  let c := nth i text "000"%char in
  match lookup c with
  | Some ((_ :: _) as cands) =>
      if (j <=? length text)
         && existsb (fun x => startswith x (slice text i j)) cands
      then Some (i, S j, indices)
      else shrink_phase cands c i j indices
  | _ =>
      match emit [c] with
      | Some x => Some (S i, j + 2, indices ++ [x])
      | None => None
      end
  end.

Inductive outcome :=
| Done (indices : list A)
| Vocab_error
| Out_of_fuel.

Fixpoint loop (fuel : nat) (i j : nat) (indices : list A) : outcome :=
  if i <? length text then
    match fuel with
    | 0 => Out_of_fuel
    | S fuel' =>
        match body i j indices with
        | Some (i', j', indices') => loop fuel' i' j' indices'
        | None => Vocab_error
        end
    end
  else Done indices.

End Scan.

Arguments Done {A} indices.
Arguments Vocab_error {A}.
Arguments Out_of_fuel {A}.

(** The measure of a scan state: the anchor dominates, then the distance of
    the trial end to [len(text) + 1]. *)
Definition measure (text : str) (i j : nat) : nat :=
  (length text - i) * (length text + 2) + (length text + 1 - j).

(** The iteration budget: above the measure of the initial state. *)
Definition scan_fuel (text : str) : nat :=
  let n := length text in S (n * (n + 2) + n + 1).

(** [GreedyAtomizer.atomize]: starts with [i = 0], [j = 2], no indices. *)
Definition atomize (V : Vocab) (text : str) : outcome :=
  loop (lookup_get V) (vocab_get V) text (scan_fuel text) 0 2 [].

(** [Atomizer.tokenize]: [list(map(lambda x: self.decoder[x], indices))]. *)
Definition tokenize (V : Vocab) (text : str) : option (list str) :=
  match atomize V text with
  | Done indices => map_option (decoder_get V) indices
  | _ => None
  end.

(** [OPENCL_ATOMS]: the bundled seed set, the multi-character atoms of the
    source followed by [string.printable] (digits, letters, punctuation and
    the whitespace characters space, tab, newline, return, vertical tab and
    form feed). *)
Local Open Scope string_scope.
Definition opencl_multichar_atoms : list str :=
  map String.list_ascii_of_string (
  [
    "  "; "__assert"; "__attribute"; "__builtin_astype"; "__clc_fabs";
    "__clc_fma"; "__constant"; "__global"; "__inline"; "__kernel";
    "__local"; "__private"; "__read_only"; "__read_write"; "__write_only";
    "*/"; "/*"; "//"; "abs"; "alignas"; "alignof"; "atomic_add"; "auto";
    "barrier"; "bool"; "break"; "case"; "char"; "clamp"; "complex"; "const";
    "constant"; "continue"; "default"; "define"; "defined"; "do"; "double";
    "elif"; "else"; "endif"; "enum"; "error"; "event_t"; "extern"; "fabs";
    "false"; "float"; "for"; "get_global_id"; "get_global_size";
    "get_local_id"; "get_local_size"; "get_num_groups"; "global"; "goto";
    "half"; "if"; "ifdef"; "ifndef"; "image1d_array_t"; "image1d_buffer_t";
    "image1d_t"; "image2d_array_t"; "image2d_t"; "image3d_t"; "imaginary";
    "include"; "inline"; "int"; "into"; "kernel"; "line"; "local"; "long";
    "noreturn"; "pragma"; "private"; "quad"; "read_only"; "read_write";
    "register"; "restrict"; "return"; "sampler_t"; "short"; "shuffle";
    "signed"; "size_t"; "sizeof"; "sqrt"; "static"; "struct"; "switch";
    "true"; "typedef"; "u32"; "uchar"; "uint"; "ulong"; "undef"; "union";
    "unsigned"; "void"; "volatile"; "while"; "wide"; "write_only"
  ]).
Local Close Scope string_scope.

Definition string_printable : list str :=
  map (fun n => [ascii_of_nat n])
    (seq 48 10 ++ seq 97 26 ++ seq 65 26 ++ seq 33 15 ++ seq 58 7
     ++ seq 91 6 ++ seq 123 4 ++ [32; 9; 10; 13; 11; 12]).

Definition OPENCL_ATOMS : list str := opencl_multichar_atoms ++ string_printable.

(** [dict(zip(OPENCL_ATOMS, range(len(OPENCL_ATOMS))))], enumerating the set
    in the order above. *)
Definition opencl_vocab : Vocab :=
  combine OPENCL_ATOMS (map Z.of_nat (seq 0 (length OPENCL_ATOMS))).

(** A small vocabulary: one multi-character atom and three characters. *)
Definition example_vocab : Vocab :=
  [(list_ascii_of_string "ab", 0%Z); (list_ascii_of_string "a", 1%Z);
   (list_ascii_of_string "b", 2%Z); (list_ascii_of_string "c", 3%Z)].

(** [collections.Counter(text)]: the distinct characters in the order of
    their first occurrence, each with its number of occurrences. *)
Fixpoint counter_add (c : ascii) (cnt : list (ascii * nat)) : list (ascii * nat) :=
  match cnt with
  | [] => [(c, 1)]
  | (k, n) :: rest =>
      if Ascii.eqb k c then (k, S n) :: rest else (k, n) :: counter_add c rest
  end.

Definition Counter (text : str) : list (ascii * nat) :=
  fold_left (fun cnt c => counter_add c cnt) text [].

(** [sorted(pairs, key=lambda x: -x[1])]: a stable sort by decreasing count.
    Each pair goes in front of the first pair whose count is not larger. *)
Fixpoint insert_desc (p : ascii * nat) (l : list (ascii * nat)) : list (ascii * nat) :=
  match l with
  | [] => [p]
  | q :: l' => if snd q <=? snd p then p :: l else q :: insert_desc p l'
  end.

Definition sort_desc (l : list (ascii * nat)) : list (ascii * nat) :=
  fold_right insert_desc [] l.

(** [CharacterAtomizer.from_text].  [None] is the [ValueError] raised by
    unpacking [atoms, _ = zip(...)] when [count_pairs] is empty. *)
Definition char_from_text (text : str) : option Vocab :=
  match sort_desc (Counter text) with
  | [] => None
  | count_pairs =>
      let atoms := map fst count_pairs in
      Some (combine (map (fun c => [c]) atoms) (map Z.of_nat (seq 0 (length atoms))))
  end.

(** The order [sort_desc] produces: counts do not increase. *)
Definition count_ge (p q : ascii * nat) : Prop := snd q <= snd p.

(** The distinct characters of a text in the order of their first
    occurrence. *)
Definition add_key (c : ascii) (ks : list ascii) : list ascii :=
  if existsb (Ascii.eqb c) ks then ks else ks ++ [c].

Definition first_occurrences (t : str) : list ascii :=
  fold_left (fun ks c => add_key c ks) t [].

(** [CharacterAtomizer.atomize]: [self.vocab[x]] for each character [x];
    a [KeyError] becomes [VocabError] ([None]). *)
Definition char_atomize (V : Vocab) (text : str) : option (list Z) :=
  map_option (fun c => vocab_get V [c]) text.

(** Python's [<] on [str]: code points compared lexicographically, a proper
    prefix coming first. *)
Fixpoint str_ltb (a b : str) : bool :=
  match a, b with
  | [], [] => false
  | [], _ :: _ => true
  | _ :: _, [] => false
  | c :: a', d :: b' =>
      if nat_of_ascii c <? nat_of_ascii d then true
      else if Ascii.eqb c d then str_ltb a' b'
      else false
  end.

(** [list(set(tokens))]: the distinct tokens (their order is irrelevant,
    [sorted] follows). *)
Fixpoint dedup_strs (l : list str) : list str :=
  match l with
  | [] => []
  | x :: l' => if existsb (str_eqb x) l' then dedup_strs l' else x :: dedup_strs l'
  end.

(** [sorted(...)] on distinct strings, as an insertion sort. *)
Fixpoint insert_str (x : str) (l : list str) : list str :=
  match l with
  | [] => [x]
  | y :: l' => if str_ltb x y then x :: l else y :: insert_str x l'
  end.

Definition sort_strs (l : list str) : list str := fold_right insert_str [] l.

(** [GreedyAtomizer.from_text]: tokenize the corpus with the seeded
    vocabulary, then number the sorted distinct tokens from 0.  [None] is the
    [VocabError] of the tokenization. *)
Definition greedy_from_text (text : str) : option Vocab :=
  match tokenize opencl_vocab text with
  | Some toks =>
      let tokens := sort_strs (dedup_strs toks) in
      Some (combine tokens (map Z.of_nat (seq 0 (length tokens))))
  | None => None
  end.

(** A vocabulary of three characters. *)
Definition char_vocab : Vocab :=
  [(list_ascii_of_string "a", 0%Z); (list_ascii_of_string "b", 1%Z);
   (list_ascii_of_string "c", 2%Z)].

End Atomizer.

(* ------------------------------------------------------------------ *)
(** ** Kernel driver ([clgen/cldrive.py]) *)

Module CLDrive.

Local Open Scope nat_scope.

(** Element types of numpy arrays and scalars, with their byte widths. *)
Inductive dtype :=
| int8 | uint8 | int16 | uint16 | int32 | uint32 | int64 | uint64
| float32 | float64.

Definition itemsize (t : dtype) : nat :=
  match t with
  | int8 | uint8 => 1
  | int16 | uint16 => 2
  | int32 | uint32 | float32 => 4
  | int64 | uint64 | float64 => 8
  end.

(** Casting a value to [t] ([t(x)], [.astype(t)]): integer types truncate
    toward zero and wrap around; floating types keep the value (rounding to
    single or double precision is not modelled). *)
Definition wrap (bits : Z) (signed : bool) (z : Z) : Z :=
  if signed then ((z + 2 ^ (bits - 1)) mod 2 ^ bits) - 2 ^ (bits - 1)
  else z mod 2 ^ bits.

Definition cast (t : dtype) (q : Q) : Q :=
  let z := Z.quot (Qnum q) (Zpos (Qden q)) in
  match t with
  | int8 => inject_Z (wrap 8 true z)
  | uint8 => inject_Z (wrap 8 false z)
  | int16 => inject_Z (wrap 16 true z)
  | uint16 => inject_Z (wrap 16 false z)
  | int32 => inject_Z (wrap 32 true z)
  | uint32 => inject_Z (wrap 32 false z)
  | int64 => inject_Z (wrap 64 true z)
  | uint64 => inject_Z (wrap 64 false z)
  | float32 | float64 => q
  end.

(** Modelled from the spec: the parsed argument descriptor
    [clutil.KernelArg(string)] (clutil is not part of this source tree).
    As in the spec's data model: the argument text, the pointer, global,
    local and const flags, the numpy element type ([None] when the
    property raises) and the vector width.  Parsing is a function of the
    text, so re-parsing [a.string] gives back the same descriptor. *)
Record ArgDesc := {
  arg_string : string;
  is_pointer : bool;
  is_global : bool;
  is_local : bool;
  is_const : bool;
  numpy_type : option dtype;
  vector_width : nat
}.

(** A numpy array: its element type and its elements. *)
Record HostArray := { h_dtype : dtype; h_vals : list Q }.

Definition nbytes (h : HostArray) : nat := length (h_vals h) * itemsize (h_dtype h).

Definition astype (h : HostArray) (t : dtype) : HostArray :=
  {| h_dtype := t; h_vals := map (cast t) (h_vals h) |}.

(** [cl.mem_flags]: [COPY_HOST_PTR] together with one access mode. *)
Inductive access := READ_ONLY | READ_WRITE.

(** What [arg.devdata] holds: a [cl.LocalMemory] or [cl.Buffer] object
    (named by its object identity) or a numpy scalar. *)
Inductive DevData :=
| DevUnset
| LocalMemory (obj : nat) (size : nat)
| Buffer (obj : nat)
| Scalar (t : dtype) (v : Q).

(** A [KernelArg] with the attributes the driver sets on it. *)
Record KernelArg := {
  desc : ArgDesc;
  hostdata : option HostArray;
  devdata : DevData;
  bufsize : nat;
  flags : option access
}.

Record Payload := {
  context : nat;
  args : list KernelArg;
  ndrange : list nat;
  transfersize : nat
}.

Record Driver := {
  drv_ctx : nat;
  prototype : list ArgDesc
}.

Inductive Command :=
| CopyH2D (obj : nat)
| CopyD2H (obj : nat)
| Launch (gsize : list nat) (lsize : nat).

Inductive Err :=
| E_BAD_ARGS | E_BAD_PROFILE | E_BAD_DRIVER
| E_NO_OUTPUTS | E_NONDETERMINISTIC | E_INPUT_INSENSITIVE
| TypeError | CLError | Diverged.

(** The state the code mutates: object identities, device memory (buffer
    contents by object), the queue's events and commands, the position in
    numpy's random stream, and the driver's three measurement vectors. *)
Record St := {
  next_obj : nat;
  dev_mem : list (nat * list Q);
  next_event : nat;
  rng : nat;
  log : list Command;
  wgsizes : list nat;
  transfers : list nat;
  runtimes : list Q
}.

(** A state and error monad: an exception keeps the state reached. *)
Definition M (A : Type) := St -> St * (Err + A).

Definition ret {A} (x : A) : M A := fun s => (s, inr x).
Definition raise {A} (e : Err) : M A := fun s => (s, inl e).
Definition bind {A B} (m : M A) (k : A -> M B) : M B :=
  fun s => match m s with
           | (s', inl e) => (s', inl e)
           | (s', inr x) => k x s'
           end.

Declare Scope m_scope.
Notation "x <- m ;; k" := (bind m (fun x => k))
  (at level 61, m at next level, right associativity) : m_scope.
Notation "m ;;; k" := (bind m (fun _ => k))
  (at level 61, right associativity) : m_scope.
Local Open Scope m_scope.

Definition assert_constraint (b : bool) (e : Err) : M unit :=
  if b then ret tt else raise e.

(** [except Exception as e: raise E_BAD_ARGS(e)]. *)
Definition wrap_bad_args {A} (m : M A) : M A :=
  fun s => match m s with
           | (s', inl _) => (s', inl E_BAD_ARGS)
           | r => r
           end.

Definition alloc : M nat :=
  fun s => ({| next_obj := S (next_obj s); dev_mem := dev_mem s;
               next_event := next_event s; rng := rng s; log := log s;
               wgsizes := wgsizes s; transfers := transfers s;
               runtimes := runtimes s |}, inr (next_obj s)).

Definition mem_write (obj : nat) (vals : list Q) : M unit :=
  fun s => ({| next_obj := next_obj s; dev_mem := (obj, vals) :: dev_mem s;
               next_event := next_event s; rng := rng s; log := log s;
               wgsizes := wgsizes s; transfers := transfers s;
               runtimes := runtimes s |}, inr tt).

Definition mem_read (obj : nat) : M (list Q) :=
  fun s => (s, inr match find (fun p => Nat.eqb (fst p) obj) (dev_mem s) with
                   | Some (_, v) => v
                   | None => []
                   end).

(** Enqueue a command; its event is the next event number. *)
Definition new_event (c : Command) : M nat :=
  fun s => ({| next_obj := next_obj s; dev_mem := dev_mem s;
               next_event := S (next_event s); rng := rng s;
               log := log s ++ [c];
               wgsizes := wgsizes s; transfers := transfers s;
               runtimes := runtimes s |}, inr (next_event s)).

(** [__call__] records one workgroup size, runtime and transfer size. *)
Definition record_stats (wg : nat) (elapsed : Q) (transfer : nat) : M unit :=
  fun s => ({| next_obj := next_obj s; dev_mem := dev_mem s;
               next_event := next_event s; rng := rng s; log := log s;
               wgsizes := wgsizes s ++ [wg];
               runtimes := runtimes s ++ [elapsed];
               transfers := transfers s ++ [transfer] |}, inr tt).

(** [KernelDriver.__init__] starts the three vectors empty. *)
Definition driver_init (s : St) : St :=
  {| next_obj := next_obj s; dev_mem := dev_mem s; next_event := next_event s;
     rng := rng s; log := log s; wgsizes := []; transfers := []; runtimes := [] |}.

(** The device: the profiling timestamps (START, END, in ns) of each event
    ([None] when profiling fails), whether [kernel.set_args] accepts the
    arguments, the kernel's effect on device memory ([None] when the launch
    fails), and numpy's random stream. *)
Section Device.
Variable event_profile : nat -> option (Z * Z).
Variable set_args_ok : list DevData -> bool.
Variable kernel_effect :
  list DevData -> list nat -> nat -> list (nat * list Q) -> option (list (nat * list Q)).
Variable random_value : nat -> Q.

(** [get_event_time]: [(tend - tstart) / 1000000] milliseconds. *)
Definition get_event_time (ev : nat) : M Q :=
  match event_profile ev with
  | Some (tstart, tend) => ret (inject_Z (tend - tstart)%Z / inject_Z 1000000)%Q
  | None => raise E_BAD_PROFILE
  end.

(** [cl.Buffer(ctx, flags, hostbuf=h)] with [COPY_HOST_PTR]. *)
Definition cl_buffer (h : HostArray) : M nat :=
  obj <- alloc ;; mem_write obj (h_vals h) ;;; ret obj.

Definition np_arange (n : nat) : M HostArray :=
  ret {| h_dtype := int64; h_vals := map (fun k => inject_Z (Z.of_nat k)) (seq 0 n) |}.

Definition np_random_rand (n : nat) : M HostArray :=
  fun s => ({| next_obj := next_obj s; dev_mem := dev_mem s;
               next_event := next_event s; rng := rng s + n; log := log s;
               wgsizes := wgsizes s; transfers := transfers s;
               runtimes := runtimes s |},
            inr {| h_dtype := float64; h_vals := map random_value (seq (rng s) n) |}).

(** The loop of [KernelPayload._create_payload], with its [transfer]
    accumulator. *)
Fixpoint create_args (nparray : nat -> M HostArray) (size : nat)
    (ds : list ArgDesc) (transfer : nat) : M (list KernelArg * nat) :=
  match ds with
  | [] => ret ([], transfer)
  | d :: ds' =>
      match numpy_type d with
      | None => raise TypeError
      | Some dt =>
          let veclength := size * vector_width d in
          if is_pointer d && is_local d then
            nonbuf <- nparray veclength ;;
            obj <- alloc ;;
            let a := {| desc := d; hostdata := None;
                        devdata := LocalMemory obj (nbytes nonbuf);
                        bufsize := nbytes nonbuf; flags := None |} in
            r <- create_args nparray size ds' transfer ;;
            ret (a :: fst r, snd r)
          else if is_pointer d then
            h0 <- nparray veclength ;;
            let h := astype h0 dt in
            let fl := if is_const d then READ_ONLY else READ_WRITE in
            obj <- cl_buffer h ;;
            let a := {| desc := d; hostdata := Some h; devdata := Buffer obj;
                        bufsize := 0; flags := Some fl |} in
            let transfer' := if is_const d then transfer + nbytes h
                             else transfer + 2 * nbytes h in
            r <- create_args nparray size ds' transfer' ;;
            ret (a :: fst r, snd r)
          else
            let a := {| desc := d; hostdata := None;
                        devdata := Scalar dt (cast dt (inject_Z (Z.of_nat size)));
                        bufsize := 0; flags := None |} in
            r <- create_args nparray size ds' transfer ;;
            ret (a :: fst r, snd r)
      end
  end.

Definition create_payload (nparray : nat -> M HostArray) (driver : Driver)
    (size : nat) : M Payload :=
  r <- wrap_bad_args (create_args nparray size (prototype driver) 0) ;;
  ret {| context := drv_ctx driver; args := fst r; ndrange := [size];
         transfersize := snd r |}.

Definition create_sequential := create_payload np_arange.
Definition create_random := create_payload np_random_rand.

(** [KernelPayload.__deepcopy__]. *)
Fixpoint clone_args (l : list KernelArg) : M (list KernelArg) :=
  match l with
  | [] => ret []
  | src :: l' =>
      dst <- match hostdata src with
             | None =>
                 if is_local (desc src) then
                   obj <- alloc ;;
                   ret {| desc := desc src; hostdata := None;
                          devdata := LocalMemory obj (bufsize src);
                          bufsize := bufsize src; flags := None |}
                 else
                   ret {| desc := desc src; hostdata := None;
                          devdata := devdata src; bufsize := 0; flags := None |}
             | Some h =>
                 obj <- cl_buffer h ;;
                 ret {| desc := desc src; hostdata := Some h; devdata := Buffer obj;
                        bufsize := 0; flags := flags src |}
             end ;;
      rest <- clone_args l' ;;
      ret (dst :: rest)
  end.

Definition clone (P : Payload) : M Payload :=
  a <- clone_args (args P) ;;
  ret {| context := context P; args := a; ndrange := ndrange P;
         transfersize := transfersize P |}.

(** Python's [!=] on [devdata]: numpy scalars compare by value,
    [cl.LocalMemory] objects (which define no equality) and buffers by
    identity, objects of different kinds are different. *)
Definition devdata_ne (a b : DevData) : bool :=
  match a, b with
  | Scalar _ v, Scalar _ w => negb (Qeq_bool v w)
  | LocalMemory o _, LocalMemory o' _ => negb (Nat.eqb o o')
  | Buffer o, Buffer o' => negb (Nat.eqb o o')
  | DevUnset, DevUnset => false
  | _, _ => true
  end.

(** The loop of [KernelPayload.__eq__]; [type(x) != type(y)] never holds
    (both are [KernelArg]s).  [None] is the [TypeError] of [len(None)]. *)
Fixpoint args_eq (xs ys : list KernelArg) : option bool :=
  match xs, ys with
  | x :: xs', y :: ys' =>
      match hostdata x with
      | None =>
          if devdata_ne (devdata x) (devdata y) then Some false
          else args_eq xs' ys'
      | Some hx =>
          match hostdata y with
          | None => None
          | Some hy =>
              if negb (Nat.eqb (length (h_vals hx)) (length (h_vals hy)))
              then Some false
              else if existsb (fun p => negb (Qeq_bool (fst p) (snd p)))
                              (combine (h_vals hx) (h_vals hy))
              then Some false
              else args_eq xs' ys'
          end
      end
  | _, _ => Some true
  end.

Definition payload_eq (P P' : Payload) : option bool :=
  if negb (Nat.eqb (context P) (context P')) then Some false
  else if negb (Nat.eqb (length (args P)) (length (args P'))) then Some false
  else args_eq (args P) (args P').

Definition peq (P P' : Payload) : M bool :=
  match payload_eq P P' with
  | Some b => ret b
  | None => raise TypeError
  end.

(** [cl.enqueue_copy(queue, arg.devdata, arg.hostdata, is_blocking=False)]. *)
Definition enqueue_copy_h2d (dev : DevData) (h : HostArray) : M nat :=
  match dev with
  | Buffer obj => mem_write obj (h_vals h) ;;; new_event (CopyH2D obj)
  | _ => raise CLError
  end.

(** [cl.enqueue_copy(queue, arg.hostdata, arg.devdata, is_blocking=False)]:
    the host array receives the buffer's contents. *)
Definition enqueue_copy_d2h (dev : DevData) (h : HostArray) : M (HostArray * nat) :=
  match dev with
  | Buffer obj =>
      vals <- mem_read obj ;;
      ev <- new_event (CopyD2H obj) ;;
      ret ({| h_dtype := h_dtype h; h_vals := vals |}, ev)
  | _ => raise CLError
  end.

(** [KernelPayload.host_to_device], with its [elapsed] accumulator. *)
Fixpoint h2d (l : list KernelArg) (elapsed : Q) : M Q :=
  match l with
  | [] => ret elapsed
  | a :: l' =>
      match hostdata a with
      | None => h2d l' elapsed
      | Some h =>
          ev <- enqueue_copy_h2d (devdata a) h ;;
          t <- get_event_time ev ;;
          h2d l' (elapsed + t)%Q
      end
  end.

Definition host_to_device (P : Payload) : M Q := h2d (args P) 0%Q.

(** The loop of [KernelPayload.device_to_host]; the copies update the
    payload's host arrays in place, so the loop gives the arguments back. *)
Fixpoint d2h (l : list KernelArg) : M (list KernelArg) :=
  match l with
  | [] => ret []
  | a :: l' =>
      match hostdata a with
      | None => rest <- d2h l' ;; ret (a :: rest)
      | Some h =>
          if is_const (desc a) then rest <- d2h l' ;; ret (a :: rest)
          else
            r <- enqueue_copy_d2h (devdata a) h ;;
            _ <- get_event_time (snd r) ;;
            rest <- d2h l' ;;
            ret ({| desc := desc a; hostdata := Some (fst r); devdata := devdata a;
                    bufsize := bufsize a; flags := flags a |} :: rest)
      end
  end.

(** [KernelPayload.device_to_host]: the updated payload and the returned
    [elapsed], which starts at [0] and is never added to. *)
Definition device_to_host (P : Payload) : M (Payload * Q) :=
  let elapsed := 0%Q in
  a <- d2h (args P) ;;
  ret ({| context := context P; args := a; ndrange := ndrange P;
          transfersize := transfersize P |}, elapsed).

Definition launch (kargs : list DevData) (gsize : list nat) (lsize : nat) : M nat :=
  fun s =>
    match kernel_effect kargs gsize lsize (dev_mem s) with
    | Some m =>
        new_event (Launch gsize lsize)
          {| next_obj := next_obj s; dev_mem := m; next_event := next_event s;
             rng := rng s; log := log s; wgsizes := wgsizes s;
             transfers := transfers s; runtimes := runtimes s |}
    | None => (s, inl CLError)
    end.

(** [KernelDriver.__call__]. *)
Definition call (driver : Driver) (payload : Payload) : M Payload :=
  let elapsed := 0%Q in
  output <- clone payload ;;
  let kargs := map devdata (args output) in
  t1 <- host_to_device output ;;
  let elapsed := (elapsed + t1)%Q in
  (if set_args_ok kargs then ret tt else raise E_BAD_ARGS) ;;;
  local_size_x <- match ndrange output with
                  | n :: _ => ret (Nat.min n 256)
                  | [] => raise TypeError
                  end ;;
  ev <- launch kargs (ndrange output) local_size_x ;;
  t2 <- get_event_time ev ;;
  let elapsed := (elapsed + t2)%Q in
  r <- device_to_host output ;;
  let elapsed := (elapsed + snd r)%Q in
  record_stats local_size_x elapsed (transfersize payload) ;;;
  ret (fst r).

(** [while B1in == A1in: B1in = KernelPayload.create_random(self, size)],
    run for at most [fuel] regenerations. *)
Fixpoint regenerate (fuel : nat) (driver : Driver) (size : nat)
    (A1in B1in : Payload) : M Payload :=
  e <- peq B1in A1in ;;
  if e then
    match fuel with
    | 0 => raise Diverged
    | S fuel' =>
        B1in' <- create_random driver size ;;
        regenerate fuel' driver size A1in B1in'
    end
  else ret B1in.

(** [KernelDriver.validate], step 1: the four input payloads. *)
Definition validate_inputs (driver : Driver) (size fuel : nat)
    : M (Payload * Payload * Payload * Payload) :=
  A1in <- create_sequential driver size ;;
  A2in <- clone A1in ;;
  B1in <- create_random driver size ;;
  B1in <- regenerate fuel driver size A1in B1in ;;
  B2in <- clone B1in ;;
  ret (A1in, A2in, B1in, B2in).

(** [KernelDriver.validate]. *)
Definition validate (driver : Driver) (size fuel : nat) : M unit :=
  ins <- validate_inputs driver size fuel ;;
  let '(A1in, A2in, B1in, B2in) := ins in
  e <- peq A1in A2in ;; assert_constraint e E_BAD_DRIVER ;;;
  e <- peq B1in B2in ;; assert_constraint e E_BAD_DRIVER ;;;
  A1out <- call driver A1in ;;
  B1out <- call driver B1in ;;
  A2out <- call driver A2in ;;
  B2out <- call driver B2in ;;
  e <- peq A1in A1out ;; assert_constraint (negb e) E_NO_OUTPUTS ;;;
  e <- peq B1in B1out ;; assert_constraint (negb e) E_NO_OUTPUTS ;;;
  e <- peq A1out A2out ;; assert_constraint e E_NONDETERMINISTIC ;;;
  e <- peq B1out B2out ;; assert_constraint e E_NONDETERMINISTIC ;;;
  if existsb (fun x => negb (is_const x)) (prototype driver) then
    e <- peq A1out B1out ;; assert_constraint (negb e) E_INPUT_INSENSITIVE
  else ret tt.

(** A client of the driver: [__call__] on each payload in turn, going on
    after a call that raises; the number of calls that returned. *)
Fixpoint run_calls (driver : Driver) (ps : list Payload) (s : St) : St * nat :=
  match ps with
  | [] => (s, 0)
  | p :: ps' =>
      let (s1, r) := call driver p s in
      let (s2, n) := run_calls driver ps' s1 in
      (s2, match r with inr _ => S n | inl _ => n end)
  end.

(** The exceptions [profile] catches around [validate]: the subclasses of
    [CLDriveException]. *)
Definition is_cldrive_exception (e : Err) : bool :=
  match e with
  | E_BAD_ARGS | E_BAD_PROFILE | E_BAD_DRIVER | E_NO_OUTPUTS
  | E_NONDETERMINISTIC | E_INPUT_INSENSITIVE => true
  | TypeError | CLError | Diverged => false
  end.

(** [try: ... except CLDriveException as e: print(...)]; the message on
    [metaout] is not modelled. *)
Definition catch_cldrive {A} (m : M A) : M unit :=
  fun s => match m s with
           | (s', inl e) => if is_cldrive_exception e then (s', inr tt) else (s', inl e)
           | (s', inr _) => (s', inr tt)
           end.

(** [while len(self.runtimes) < min_num_iterations: k(P)], run for at most
    [fuel] rounds. *)
Fixpoint profile_loop (fuel : nat) (driver : Driver) (P : Payload)
    (min_num_iterations : nat) : M unit :=
  fun s =>
    if length (runtimes s) <? min_num_iterations then
      match fuel with
      | 0 => (s, inl Diverged)
      | S fuel' =>
          bind (call driver P) (fun _ => profile_loop fuel' driver P min_num_iterations) s
      end
    else (s, inr tt).

(** [KernelDriver.profile] up to its output: the optional validation, the
    random payload, and the loop, given [min_num_iterations] rounds (each
    round raises or appends a runtime).  The statistics it prints are
    computed from the three vectors and are not modelled; [fuel] bounds
    [validate]'s regeneration loop. *)
Definition profile (driver : Driver) (size : nat) (must_validate : bool)
    (min_num_iterations fuel : nat) : M unit :=
  (if must_validate then catch_cldrive (validate driver size fuel) else ret tt) ;;;
  P <- create_random driver size ;;
  profile_loop min_num_iterations driver P min_num_iterations.

End Device.

(** What the generators record as a transfer size, argument by argument: a
    non-local pointer (the only kind with a host array) counts its host
    array's bytes once when const and twice otherwise. *)
Definition transfer_contrib (a : KernelArg) : nat :=
  match hostdata a with
  | Some h =>
      if is_pointer (desc a) && negb (is_local (desc a)) then
        if is_const (desc a) then nbytes h else 2 * nbytes h
      else 0
  | None => 0
  end.

(** The same sum restricted to global pointers. *)
Definition global_transfer_contrib (a : KernelArg) : nat :=
  match hostdata a with
  | Some h =>
      if is_pointer (desc a) && is_global (desc a) then
        if is_const (desc a) then nbytes h else 2 * nbytes h
      else 0
  | None => 0
  end.

(** Example kernels, argument descriptors and devices. *)
Definition arg_global_int := {|
  arg_string := "__global int* a"; is_pointer := true; is_global := true;
  is_local := false; is_const := false; numpy_type := Some int32;
  vector_width := 1 |}.

Definition arg_const_int := {|
  arg_string := "const int n"; is_pointer := false; is_global := false;
  is_local := false; is_const := true; numpy_type := Some int32;
  vector_width := 1 |}.

Definition arg_local_int := {|
  arg_string := "__local int* c"; is_pointer := true; is_global := false;
  is_local := true; is_const := false; numpy_type := Some int32;
  vector_width := 1 |}.

Definition arg_constant_float := {|
  arg_string := "__constant float* k"; is_pointer := true; is_global := false;
  is_local := false; is_const := false; numpy_type := Some float32;
  vector_width := 1 |}.

Definition arg_const_constant_float := {|
  arg_string := "const __constant float* w"; is_pointer := true;
  is_global := false; is_local := false; is_const := true;
  numpy_type := Some float32; vector_width := 1 |}.

(** [kernel void A(global int* a, const int n)]. *)
Definition driver_global := {| drv_ctx := 7; prototype := [arg_global_int; arg_const_int] |}.

(** [kernel void A(local int* c)]. *)
Definition driver_local := {| drv_ctx := 7; prototype := [arg_local_int] |}.

(** [kernel void A(constant float* k, const constant float* w)]. *)
Definition driver_constant :=
  {| drv_ctx := 7; prototype := [arg_constant_float; arg_const_constant_float] |}.

Definition st_init : St :=
  {| next_obj := 0; dev_mem := []; next_event := 0; rng := 0; log := [];
     wgsizes := []; transfers := []; runtimes := [] |}.

(** Every event lasts 2 ms. *)
Definition profile_2ms (ev : nat) : option (Z * Z) := Some (0%Z, 2000000%Z).

Definition accept_args (k : list DevData) : bool := true.

(** A kernel that adds one to each element of its first buffer argument. *)
Definition kernel_inc (k : list DevData) (g : list nat) (l : nat)
    (m : list (nat * list Q)) : option (list (nat * list Q)) :=
  match k with
  | Buffer o :: _ =>
      let v := match find (fun p => Nat.eqb (fst p) o) m with
               | Some (_, v) => v
               | None => []
               end in
      Some ((o, map (fun q => q + 1)%Q v) :: m)
  | _ => Some m
  end.

(** A kernel with an empty body. *)
Definition kernel_empty (k : list DevData) (g : list nat) (l : nat)
    (m : list (nat * list Q)) : option (list (nat * list Q)) := Some m.

Definition random_tenths (n : nat) : Q := (Z.of_nat (n mod 7) # 10)%Q.

(** Two arguments of a payload, one holding the host array [0, 1, 2, 3]
    and one without host data. *)
Definition arr_0123 : HostArray :=
  {| h_dtype := int32; h_vals := map (fun k => inject_Z (Z.of_nat k)) (seq 0 4) |}.

Definition arg_with_host : KernelArg :=
  {| desc := arg_global_int; hostdata := Some arr_0123; devdata := Buffer 0;
     bufsize := 0; flags := Some READ_WRITE |}.

Definition arg_without_host : KernelArg :=
  {| desc := arg_global_int; hostdata := None; devdata := Buffer 1;
     bufsize := 0; flags := None |}.

End CLDrive.

(* ------------------------------------------------------------------ *)
(** ** Properties of the greedy scan *)

Module AtomizerFacts.
Import Atomizer.
Local Open Scope nat_scope.

Lemma str_eqb_eq (a b : str) : str_eqb a b = true <-> a = b.
Proof.
  revert b; induction a as [|c a IH]; intros [|d b]; simpl;
    try (split; congruence).
  rewrite andb_true_iff, Ascii.eqb_eq, IH.
  split; [intros [-> ->]; reflexivity | intros H; injection H; auto].
Qed.

Lemma str_eqb_refl (a : str) : str_eqb a a = true.
Proof. apply str_eqb_eq; reflexivity. Qed.

(** Slices of the scanned text. *)

Lemma firstn_app_slice (l : str) (i j : nat) :
  i <= j -> firstn i l ++ slice l i j = firstn j l.
Proof.
  unfold slice. revert i j; induction l as [|c l IH]; intros i j Hij.
  - rewrite skipn_nil, !firstn_nil; reflexivity.
  - destruct i as [|i]; destruct j as [|j]; simpl; try lia.
    + reflexivity.
    + reflexivity.
    + rewrite <- (IH i j) by lia; reflexivity.
Qed.

Lemma slice_single (l : str) (i : nat) (d : ascii) :
  i < length l -> slice l i (S i) = [nth i l d].
Proof.
  unfold slice. replace (S i - i) with 1 by lia.
  revert i; induction l as [|c l IH]; intros i Hi; simpl in *; [lia|].
  destruct i as [|i]; [reflexivity|]. apply IH; lia.
Qed.

(** The inner loop only answers with a match strictly beyond [i + 1]. *)
Lemma shrink_inl (text : str) cands i j j' :
  shrink text cands i j = inl j' -> i + 1 < j' /\ j' <= j.
Proof.
  revert j'; induction j as [|j IH]; intros j' H; simpl in H; [discriminate|].
  destruct (i + 1 <? S j) eqn:Hlt; [|discriminate].
  apply Nat.ltb_lt in Hlt.
  destruct (existsb _ cands).
  - injection H as <-; lia.
  - destruct (IH _ H); lia.
Qed.

(** ** Termination *)

Lemma measure_anchor (text : str) i j i' j' :
  i < length text -> i < i' -> measure text i' j' < measure text i j.
Proof.
  unfold measure. intros H1 H2.
  assert (length text - i' < length text - i) by lia.
  set (L := length text) in *.
  set (a := L - i') in *. set (b := L - i) in *.
  assert (a * (L + 2) + (L + 2) <= b * (L + 2)) by nia.
  lia.
Qed.

Lemma body_measure {A} lookup (emit : str -> option A) text i j out i' j' out' :
  i < length text ->
  body lookup emit text i j out = Some (i', j', out') ->
  measure text i' j' < measure text i j.
Proof.
  intros Hi Hb. unfold body in Hb.
  destruct (lookup _) as [[|x cands]|].
  - destruct (emit _); [|discriminate].
    injection Hb as <- <- _. apply measure_anchor; lia.
  - destruct ((j <=? length text) && _) eqn:Hext.
    + injection Hb as <- <- _. apply andb_true_iff in Hext as [Hj _].
      apply Nat.leb_le in Hj. unfold measure. lia.
    + unfold shrink_phase in Hb.
      destruct (shrink text _ i j) as [j0|j0] eqn:Hs.
      * apply shrink_inl in Hs.
        destruct (emit _); [|discriminate].
        injection Hb as <- <- _. apply measure_anchor; lia.
      * destruct (emit _); [|discriminate].
        injection Hb as <- <- _. apply measure_anchor; lia.
  - destruct (emit _); [|discriminate].
    injection Hb as <- <- _. apply measure_anchor; lia.
Qed.

Lemma loop_not_out_of_fuel {A} lookup (emit : str -> option A) text :
  forall fuel i j out,
  measure text i j < fuel -> loop lookup emit text fuel i j out <> Out_of_fuel.
Proof.
  induction fuel as [|fuel IH]; intros i j out Hm; [lia|].
  simpl. destruct (i <? length text) eqn:Hi; [|discriminate].
  apply Nat.ltb_lt in Hi.
  destruct (body lookup emit text i j out) as [[[i' j'] out']|] eqn:Hb;
    [|discriminate].
  apply IH. pose proof (body_measure _ _ _ _ _ _ _ _ _ Hi Hb). lia.
Qed.

(** ** Round trip *)

Lemma body_inv {A} lookup (emit : str -> option A) text i j out i' j' out'
    (strs : list str) :
  i < length text ->
  body lookup emit text i j out = Some (i', j', out') ->
  Forall2 (fun s x => emit s = Some x) strs out ->
  concat strs = firstn i text ->
  exists strs', Forall2 (fun s x => emit s = Some x) strs' out'
                /\ concat strs' = firstn i' text.
Proof.
  intros Hi Hb Hf Hc.
  assert (Hone : forall x, emit [nth i text "000"%char] = Some x ->
     Forall2 (fun s x => emit s = Some x) (strs ++ [slice text i (S i)])
       (out ++ [x])
     /\ concat (strs ++ [slice text i (S i)]) = firstn (S i) text).
  { intros x Hx. rewrite <- (slice_single text i "000"%char Hi) in Hx.
    split; [apply Forall2_app; auto|].
    rewrite concat_app, Hc; simpl; rewrite app_nil_r.
    apply firstn_app_slice; lia. }
  unfold body in Hb.
  destruct (lookup _) as [[|x0 cands]|].
  - destruct (emit _) as [x|] eqn:Hx; [|discriminate].
    injection Hb as <- <- <-. eexists; apply Hone; reflexivity.
  - destruct ((j <=? length text) && _).
    + injection Hb as <- <- <-. eauto.
    + unfold shrink_phase in Hb.
      destruct (shrink text _ i j) as [j0|j0] eqn:Hs.
      * apply shrink_inl in Hs.
        destruct (emit (slice text i j0)) as [x|] eqn:Hx; [|discriminate].
        injection Hb as <- <- <-.
        exists (strs ++ [slice text i j0]). split.
        -- apply Forall2_app; auto.
        -- rewrite concat_app, Hc; simpl; rewrite app_nil_r.
           apply firstn_app_slice; lia.
      * destruct (emit _) as [x|] eqn:Hx; [|discriminate].
        injection Hb as <- <- <-. eexists; apply Hone; reflexivity.
  - destruct (emit _) as [x|] eqn:Hx; [|discriminate].
    injection Hb as <- <- <-. eexists; apply Hone; reflexivity.
Qed.

Lemma loop_inv {A} lookup (emit : str -> option A) text :
  forall fuel i j out res (strs : list str),
  loop lookup emit text fuel i j out = Done res ->
  Forall2 (fun s x => emit s = Some x) strs out ->
  concat strs = firstn i text ->
  exists strs', Forall2 (fun s x => emit s = Some x) strs' res
                /\ concat strs' = text.
Proof.
  induction fuel as [|fuel IH]; intros i j out res strs Hl Hf Hc; simpl in Hl.
  - destruct (i <? length text) eqn:Hi; [discriminate|].
    injection Hl as <-. apply Nat.ltb_ge in Hi.
    exists strs; split; [exact Hf|]. rewrite Hc. apply firstn_all2; exact Hi.
  - destruct (i <? length text) eqn:Hi.
    + apply Nat.ltb_lt in Hi.
      destruct (body lookup emit text i j out) as [[[i' j'] out']|] eqn:Hb;
        [|discriminate].
      destruct (body_inv _ _ _ _ _ _ _ _ _ strs Hi Hb Hf Hc) as (s' & Hf' & Hc').
      eapply IH; eauto.
    + injection Hl as <-. apply Nat.ltb_ge in Hi.
      exists strs; split; [exact Hf|]. rewrite Hc. apply firstn_all2; exact Hi.
Qed.

(** The decoder inverts the vocabulary when its indices are distinct. *)
Lemma in_snd_unique (l : Vocab) a a' b :
  NoDup (map snd l) -> In (a, b) l -> In (a', b) l -> a = a'.
Proof.
  induction l as [|[k v] l IH]; simpl; [tauto|].
  intros Hnd H1 H2. inversion Hnd as [|? ? Hnotin Hnd']; subst.
  destruct H1 as [H1|H1], H2 as [H2|H2].
  - congruence.
  - injection H1 as <- <-. exfalso; apply Hnotin.
    apply (in_map snd) in H2; exact H2.
  - injection H2 as <- <-. exfalso; apply Hnotin.
    apply (in_map snd) in H1; exact H1.
  - eauto.
Qed.

Lemma vocab_get_in (V : Vocab) s x : vocab_get V s = Some x -> In (s, x) V.
Proof.
  induction V as [|[k v] V IH]; simpl; [discriminate|].
  destruct (str_eqb s k) eqn:E.
  - apply str_eqb_eq in E; subst. intros H; injection H as <-; auto.
  - auto.
Qed.

Lemma decoder_get_vocab_get (V : Vocab) s x :
  NoDup (map snd V) -> vocab_get V s = Some x -> decoder_get V x = Some s.
Proof.
  intros Hnd Hg. apply vocab_get_in in Hg.
  unfold decoder_get, decoder.
  destruct (find _ _) as [[v k]|] eqn:Hfind.
  - apply find_some in Hfind as [Hin Hv]. apply Z.eqb_eq in Hv; subst v.
    rewrite <- in_rev, in_map_iff in Hin. destruct Hin as [[k' v'] [Heq Hin]].
    injection Heq as -> ->. f_equal. eapply in_snd_unique; eauto.
  - exfalso. assert (Hin : In (x, s) (rev (map (fun '(k, v) => (v, k)) V))).
    { rewrite <- in_rev, in_map_iff. exists (s, x); auto. }
    apply (find_none _ _ Hfind) in Hin. rewrite Z.eqb_refl in Hin.
    discriminate.
Qed.

Lemma map_option_decoder (V : Vocab) strs idx :
  NoDup (map snd V) ->
  Forall2 (fun s x => vocab_get V s = Some x) strs idx ->
  map_option (decoder_get V) idx = Some strs.
Proof.
  intros Hnd Hf. induction Hf as [|s x strs idx Hx _ IH]; [reflexivity|].
  simpl. rewrite (decoder_get_vocab_get V s x Hnd Hx), IH. reflexivity.
Qed.

(** ** Scans that agree on their tables and emissions *)

Definition cands_of (o : option (list str)) : list str :=
  match o with Some l => l | None => [] end.

Lemma existsb_members {T} (p : T -> bool) (l1 l2 : list T) :
  (forall x, In x l1 <-> In x l2) -> existsb p l1 = existsb p l2.
Proof.
  intros H. destruct (existsb p l1) eqn:E1, (existsb p l2) eqn:E2; auto.
  - apply existsb_exists in E1 as (x & Hx & Hp).
    apply H in Hx. assert (existsb p l2 = true) by (apply existsb_exists; eauto).
    congruence.
  - apply existsb_exists in E2 as (x & Hx & Hp).
    apply H in Hx. assert (existsb p l1 = true) by (apply existsb_exists; eauto).
    congruence.
Qed.

Lemma shrink_members text l1 l2 i j :
  (forall x, In x l1 <-> In x l2) -> shrink text l1 i j = shrink text l2 i j.
Proof.
  intros H. induction j as [|j IH]; simpl; [reflexivity|].
  rewrite (existsb_members _ l1 l2 H), IH. reflexivity.
Qed.

Lemma body_ext {A} lk1 lk2 (e1 e2 : str -> option A) text i j out :
  (forall c x, In x (cands_of (lk1 c)) <-> In x (cands_of (lk2 c))) ->
  (forall s, e1 s = e2 s) ->
  body lk1 e1 text i j out = body lk2 e2 text i j out.
Proof.
  intros Hl He. unfold body, shrink_phase.
  specialize (Hl (nth i text "000"%char)).
  rewrite !He.
  destruct (lk1 _) as [[|x1 l1]|] eqn:E1, (lk2 _) as [[|x2 l2]|] eqn:E2;
    simpl in Hl;
    try reflexivity;
    try (exfalso; apply (proj1 (Hl x1)); left; reflexivity);
    try (exfalso; apply (proj2 (Hl x2)); left; reflexivity).
  rewrite (existsb_members _ (x1 :: l1) (x2 :: l2) Hl).
  rewrite (shrink_members text (x1 :: l1) (x2 :: l2) i j Hl).
  destruct (_ && _); [reflexivity|].
  destruct (shrink text (x2 :: l2) i j); rewrite ?He; reflexivity.
Qed.

Lemma loop_ext {A} lk1 lk2 (e1 e2 : str -> option A) text :
  (forall c x, In x (cands_of (lk1 c)) <-> In x (cands_of (lk2 c))) ->
  (forall s, e1 s = e2 s) ->
  forall fuel i j out,
  loop lk1 e1 text fuel i j out = loop lk2 e2 text fuel i j out.
Proof.
  intros Hl He. induction fuel as [|fuel IH]; intros i j out; simpl;
    [reflexivity|].
  destruct (i <? length text); [|reflexivity].
  rewrite (body_ext lk1 lk2 e1 e2 text i j out Hl He).
  destruct (body lk2 e2 text i j out) as [[[i' j'] out']|]; auto.
Qed.

Lemma map_option_snoc {T U} (g : T -> option U) l x ys y :
  map_option g l = Some ys -> g x = Some y ->
  map_option g (l ++ [x]) = Some (ys ++ [y]).
Proof.
  revert ys; induction l as [|a l IH]; intros ys Hl Hx; simpl in *.
  - injection Hl as <-. rewrite Hx. reflexivity.
  - destruct (g a) as [b|]; [|discriminate].
    destruct (map_option g l) as [bs|]; [|discriminate].
    injection Hl as <-. rewrite (IH bs eq_refl Hx). reflexivity.
Qed.

(** Emitting [g] of what [e1] emits runs the same scan. *)
Section Sim.
Context {A B : Type}.
Variable lookup : ascii -> option (list str).
Variable e1 : str -> option A.
Variable g : A -> option B.
Hypothesis g_total : forall s x, e1 s = Some x -> exists y, g x = Some y.

Definition e2 (s : str) : option B :=
  match e1 s with Some x => g x | None => None end.

Definition outcome_rel (o1 : outcome (A := A)) (o2 : outcome (A := B)) : Prop :=
  match o1, o2 with
  | Done r1, Done r2 => map_option g r1 = Some r2
  | Vocab_error, Vocab_error => True
  | Out_of_fuel, Out_of_fuel => True
  | _, _ => False
  end.

Lemma emit_sim s ys xs :
  map_option g xs = Some ys ->
  match e1 s, e2 s with
  | Some x, Some y => map_option g (xs ++ [x]) = Some (ys ++ [y])
  | None, None => True
  | _, _ => False
  end.
Proof.
  intros H. unfold e2. destruct (e1 s) as [x|] eqn:E; [|exact I].
  destruct (g_total s x E) as [y Hy]. rewrite Hy.
  apply map_option_snoc; assumption.
Qed.

Lemma body_sim text i j xs ys :
  map_option g xs = Some ys ->
  match body lookup e1 text i j xs, body lookup e2 text i j ys with
  | Some (i1, j1, xs'), Some (i2, j2, ys') =>
      i1 = i2 /\ j1 = j2 /\ map_option g xs' = Some ys'
  | None, None => True
  | _, _ => False
  end.
Proof.
  intros H. unfold body, shrink_phase.
  destruct (lookup _) as [[|x0 cands]|].
  - pose proof (emit_sim [nth i text "000"%char] ys xs H) as Hs.
    destruct (e1 _), (e2 _); tauto.
  - destruct (_ && _); [auto|].
    destruct (shrink text _ i j) as [j0|j0].
    + pose proof (emit_sim (slice text i j0) ys xs H) as Hs.
      destruct (e1 _), (e2 _); tauto.
    + pose proof (emit_sim [nth i text "000"%char] ys xs H) as Hs.
      destruct (e1 _), (e2 _); tauto.
  - pose proof (emit_sim [nth i text "000"%char] ys xs H) as Hs.
    destruct (e1 _), (e2 _); tauto.
Qed.

Lemma loop_sim text :
  forall fuel i j xs ys, map_option g xs = Some ys ->
  outcome_rel (loop lookup e1 text fuel i j xs) (loop lookup e2 text fuel i j ys).
Proof.
  induction fuel as [|fuel IH]; intros i j xs ys H; simpl.
  - destruct (i <? length text); simpl; auto.
  - destruct (i <? length text); simpl; [|exact H].
    pose proof (body_sim text i j xs ys H) as Hb.
    destruct (body lookup e1 text i j xs) as [[[i1 j1] xs']|],
             (body lookup e2 text i j ys) as [[[i2 j2] ys']|];
      try contradiction; simpl; auto.
    destruct Hb as (-> & -> & Hm). apply IH; exact Hm.
Qed.

End Sim.

(** [self.vocab[s]] followed by [self.decoder[...]] keeps [s] itself. *)
Definition member_emit (keys : list str) (s : str) : option str :=
  if existsb (str_eqb s) keys then Some s else None.

Lemma vocab_get_none (V : Vocab) s :
  vocab_get V s = None -> ~ In s (map fst V).
Proof.
  induction V as [|[k v] V IH]; simpl; [tauto|].
  destruct (str_eqb s k) eqn:E; [discriminate|].
  intros H [Hk|Hin]; [|exact (IH H Hin)].
  subst k. rewrite str_eqb_refl in E. discriminate.
Qed.

Lemma existsb_str_eqb_in s keys :
  existsb (str_eqb s) keys = true <-> In s keys.
Proof.
  rewrite existsb_exists. split.
  - intros (x & Hx & E). apply str_eqb_eq in E. subst; exact Hx.
  - intros H. exists s. split; [exact H| apply str_eqb_refl].
Qed.

Lemma tokenize_keys (V : Vocab) (text : str) :
  NoDup (map snd V) ->
  tokenize V text =
  match loop (lookup_get V) (member_emit (map fst V)) text (scan_fuel text) 0 2 []
  with Done r => Some r | _ => None end.
Proof.
  intros Hnd.
  assert (Hg : forall s x, vocab_get V s = Some x ->
                 exists y, decoder_get V x = Some y).
  { intros s x H. exists s. apply decoder_get_vocab_get; assumption. }
  pose proof (loop_sim (lookup_get V) (vocab_get V) (decoder_get V) Hg text
                (scan_fuel text) 0 2 [] [] eq_refl) as Hs.
  rewrite (loop_ext (lookup_get V) (lookup_get V) (e2 (vocab_get V) (decoder_get V))
             (member_emit (map fst V))) in Hs.
  - unfold tokenize, atomize.
    destruct (loop _ (vocab_get V) _ _ _ _ _), (loop _ (member_emit _) _ _ _ _ _);
      simpl in Hs; try contradiction; auto.
  - tauto.
  - intros s. unfold e2, member_emit.
    destruct (vocab_get V s) as [x|] eqn:E.
    + rewrite (decoder_get_vocab_get V s x Hnd E).
      apply vocab_get_in in E.
      assert (In s (map fst V)) by (apply (in_map fst) in E; exact E).
      apply existsb_str_eqb_in in H. rewrite H. reflexivity.
    + apply vocab_get_none in E.
      destruct (existsb (str_eqb s) (map fst V)) eqn:E'; [|reflexivity].
      apply existsb_str_eqb_in in E'. contradiction.
Qed.

Lemma cands_of_lookup_get (V : Vocab) c :
  cands_of (lookup_get V c) =
  filter (fun a => match a with d :: _ => Ascii.eqb d c | [] => false end)
         (multichars V).
Proof. unfold lookup_get. destruct (filter _ _); reflexivity. Qed.

(** The scan only depends on which atoms the vocabulary holds. *)
Lemma tokenize_members (V : Vocab) (keys : list str) (text : str) :
  NoDup (map snd V) ->
  (forall s, In s (map fst V) <-> In s keys) ->
  tokenize V text =
  match loop (fun c => Some (filter (fun a => match a with d :: _ => Ascii.eqb d c | [] => false end)
                         (filter (fun k => 1 <? length k) keys)))
             (member_emit keys) text (scan_fuel text) 0 2 []
  with Done r => Some r | _ => None end.
Proof.
  intros Hnd Hk. rewrite (tokenize_keys V text Hnd).
  rewrite (loop_ext (lookup_get V)
    (fun c => Some (filter (fun a => match a with d :: _ => Ascii.eqb d c | [] => false end)
                     (filter (fun k => 1 <? length k) keys)))
    (member_emit (map fst V)) (member_emit keys)).
  - reflexivity.
  - intros c x. rewrite cands_of_lookup_get. unfold multichars. simpl.
    rewrite !filter_In, Hk. tauto.
  - intros s. unfold member_emit.
    rewrite (existsb_members _ (map fst V) keys Hk). reflexivity.
Qed.

(** [x.startswith(s)] holds exactly when [s] is a prefix of [x]. *)
Lemma startswith_prefix (x s : str) :
  startswith x s = true <-> exists r, x = s ++ r.
Proof.
  revert x; induction s as [|c s IH]; intros [|d x]; simpl.
  - split; [exists []; reflexivity| auto].
  - split; [exists (d :: x); reflexivity| auto].
  - split; [discriminate| intros [r Hr]; discriminate].
  - rewrite andb_true_iff, Ascii.eqb_eq, IH. split.
    + intros [-> [r ->]]. exists r; reflexivity.
    + intros [r Hr]. injection Hr as -> ->. eauto.
Qed.

Lemma map_fst_combine {T U} (l : list T) (l' : list U) :
  length l = length l' -> map fst (combine l l') = l.
Proof.
  revert l'; induction l as [|a l IH]; intros [|b l'] H; simpl in *;
    try discriminate; auto.
  rewrite IH by lia; reflexivity.
Qed.

Lemma map_snd_combine {T U} (l : list T) (l' : list U) :
  length l = length l' -> map snd (combine l l') = l'.
Proof.
  revert l'; induction l as [|a l IH]; intros [|b l'] H; simpl in *;
    try discriminate; auto.
  rewrite IH by lia; reflexivity.
Qed.

Lemma opencl_vocab_nodup : NoDup (map snd opencl_vocab).
Proof.
  unfold opencl_vocab. rewrite map_snd_combine by (rewrite length_map, length_seq; reflexivity).
  generalize (seq_NoDup (length OPENCL_ATOMS) 0).
  induction 1 as [|a l Ha _ IH]; simpl; constructor; [|exact IH].
  rewrite in_map_iff. intros (b & Hb & Hin). apply Nat2Z.inj in Hb.
  subst; contradiction.
Qed.

Lemma opencl_vocab_keys : map fst opencl_vocab = OPENCL_ATOMS.
Proof.
  unfold opencl_vocab. apply map_fst_combine.
  rewrite length_map, length_seq; reflexivity.
Qed.


(** ** The greedy scan: round trip, extension, tokens and termination *)

Lemma lookup_get_nonempty (V : Vocab) c cands :
  lookup_get V c = Some cands -> cands <> [].
Proof.
  unfold lookup_get. destruct (filter _ _); [discriminate|].
  intros H; injection H as <-; discriminate.
Qed.

Lemma example_vocab_nodup : NoDup (map snd example_vocab).
Proof. repeat constructor; cbn; intuition lia. Qed.

(** C10: [GreedyAtomizer.atomize] terminates on every text, for every
    vocabulary: the scan leaves its loop (with indices or a [VocabError])
    before its budget, bounded by the measure of the initial state, runs
    out.  Each pass advances [i], or advances [j] while [j <= len(text)]. *)
Theorem greedy_atomize_terminates (V : Vocab) (text : str) :
  atomize V text <> Out_of_fuel.
Proof.
  unfold atomize. apply loop_not_out_of_fuel.
  unfold measure, scan_fuel. rewrite Nat.sub_0_r. lia.
Qed.

(** C1: for every vocabulary with distinct indices (a bijection onto its
    indices, as the data model requires), every text that atomizes without
    a [VocabError] is given back by [deatomize]. *)
Theorem greedy_roundtrip (V : Vocab) (text : str) (idx : list Z) :
  NoDup (map snd V) ->
  atomize V text = Done idx ->
  deatomize V idx = Some text.
Proof.
  intros Hnd Ha. unfold atomize in Ha.
  destruct (loop_inv _ _ text _ _ _ _ _ [] Ha (Forall2_nil _) eq_refl)
    as (strs & Hf & Hc).
  unfold deatomize. rewrite (map_option_decoder V strs idx Hnd Hf), Hc.
  reflexivity.
Qed.

Lemma greedy_roundtrip_witness :
  NoDup (map snd example_vocab) /\
  atomize example_vocab (list_ascii_of_string "abc") = Done [0%Z; 3%Z] /\
  deatomize example_vocab [0%Z; 3%Z] = Some (list_ascii_of_string "abc").
Proof.
  split; [exact example_vocab_nodup|]. split; [vm_compute; reflexivity|].
  apply greedy_roundtrip; [exact example_vocab_nodup| vm_compute; reflexivity].
Defined.

(** C2 (as the code has it): when [text[i]] heads a multi-character atom,
    [j] is advanced by one exactly when [j <= len(text)] and [text[i:j]] is
    a prefix of one of the candidate atoms ([x.startswith(text[i:j])]);
    otherwise the shrink phase runs. *)
Theorem greedy_extension_rule (V : Vocab) (text : str) (i j : nat)
    (out : list Z) (cands : list str) :
  i < length text ->
  lookup_get V (nth i text "000"%char) = Some cands ->
  ((j <= length text /\ exists x r, In x cands /\ x = slice text i j ++ r) ->
   body (lookup_get V) (vocab_get V) text i j out = Some (i, S j, out)) /\
  (~ (j <= length text /\ exists x r, In x cands /\ x = slice text i j ++ r) ->
   body (lookup_get V) (vocab_get V) text i j out =
   shrink_phase (vocab_get V) text cands (nth i text "000"%char) i j out).
Proof.
  intros _ Hl. pose proof (lookup_get_nonempty _ _ _ Hl) as Hne.
  assert (Hiff : (j <=? length text)
                 && existsb (fun x => startswith x (slice text i j)) cands = true
                 <-> (j <= length text
                      /\ exists x r, In x cands /\ x = slice text i j ++ r)).
  { rewrite andb_true_iff, Nat.leb_le, existsb_exists.
    split.
    - intros [Hj (x & Hx & Hs)]. apply startswith_prefix in Hs as [r Hr].
      eauto.
    - intros [Hj (x & r & Hx & Hr)]. split; [exact Hj|].
      exists x. split; [exact Hx|]. apply startswith_prefix; eauto. }
  unfold body. rewrite Hl.
  destruct cands as [|x0 cands]; [contradiction|].
  split.
  - intros H. apply Hiff in H. rewrite H. reflexivity.
  - intros H. destruct (_ && _) eqn:E; [|reflexivity].
    exfalso; apply H, Hiff; reflexivity.
Qed.

Lemma greedy_extension_rule_witness :
  0 < length (list_ascii_of_string "abc") /\
  lookup_get example_vocab "a"%char = Some [list_ascii_of_string "ab"] /\
  body (lookup_get example_vocab) (vocab_get example_vocab)
    (list_ascii_of_string "abc") 0 2 [] = Some (0, 3, []).
Proof.
  split; [simpl; lia|]. split; [reflexivity|].
  apply (proj1 (greedy_extension_rule example_vocab (list_ascii_of_string "abc")
                  0 2 [] [list_ascii_of_string "ab"]
                  ltac:(simpl; lia) eq_refl)).
  split; [simpl; lia|]. exists (list_ascii_of_string "ab"), [].
  split; [left; reflexivity| reflexivity].
Defined.

(** C2 (as stated) fails: with the atom ["ab"] and the text ["abc"], the
    scan advances [j] from 2 to 3 although no candidate atom is a proper
    prefix of [text[0:2] = "ab"]. *)
Lemma greedy_extension_counterexample :
  lookup_get example_vocab "a"%char = Some [list_ascii_of_string "ab"] /\
  body (lookup_get example_vocab) (vocab_get example_vocab)
    (list_ascii_of_string "abc") 0 2 [] = Some (0, 3, []) /\
  ~ (exists x r, In x [list_ascii_of_string "ab"] /\ r <> [] /\
       slice (list_ascii_of_string "abc") 0 2 = x ++ r).
Proof.
  split; [reflexivity|]. split; [reflexivity|].
  intros (x & r & [<-|[]] & Hr & Heq).
  apply (f_equal (@length ascii)) in Heq. rewrite length_app in Heq.
  destruct r; [contradiction| simpl in Heq; lia].
Qed.

(** C3: for the seeded vocabulary [OPENCL_ATOMS], whatever distinct indices
    the enumeration of the set assigns, [tokenize("__kernel void f")] is
    [["__kernel", " ", "void", " ", "f"]]. *)
Theorem opencl_tokenize_kernel (V : Vocab) :
  (forall s, In s (map fst V) <-> In s OPENCL_ATOMS) ->
  NoDup (map snd V) ->
  tokenize V (list_ascii_of_string "__kernel void f") =
  Some (map list_ascii_of_string ["__kernel"; " "; "void"; " "; "f"]%string).
Proof.
  intros Hk Hnd. rewrite (tokenize_members V OPENCL_ATOMS _ Hnd Hk).
  vm_compute. reflexivity.
Qed.

Lemma opencl_tokenize_kernel_witness :
  (forall s, In s (map fst opencl_vocab) <-> In s OPENCL_ATOMS) /\
  NoDup (map snd opencl_vocab) /\
  tokenize opencl_vocab (list_ascii_of_string "__kernel void f") =
  Some (map list_ascii_of_string ["__kernel"; " "; "void"; " "; "f"]%string).
Proof.
  assert (Hk : forall s, In s (map fst opencl_vocab) <-> In s OPENCL_ATOMS)
    by (intros s; rewrite opencl_vocab_keys; reflexivity).
  split; [exact Hk|]. split; [exact opencl_vocab_nodup|].
  apply opencl_tokenize_kernel; [exact Hk| exact opencl_vocab_nodup].
Defined.

(** *** The character vocabulary *)

Lemma insert_desc_perm p l : Permutation (insert_desc p l) (p :: l).
Proof.
  induction l as [|q l IH]; simpl; [reflexivity|].
  destruct (snd q <=? snd p); [reflexivity|].
  rewrite IH. apply perm_swap.
Qed.

Lemma sort_desc_perm l : Permutation (sort_desc l) l.
Proof.
  induction l as [|p l IH]; simpl; [reflexivity|].
  rewrite insert_desc_perm, IH; reflexivity.
Qed.

Lemma insert_desc_sorted p l :
  Sorted count_ge l -> Sorted count_ge (insert_desc p l).
Proof.
  induction 1 as [|q l Hl IH Hhd]; simpl.
  - repeat constructor.
  - destruct (snd q <=? snd p) eqn:E.
    + apply Nat.leb_le in E. constructor; [constructor; assumption|].
      constructor; exact E.
    + apply Nat.leb_gt in E. constructor; [exact IH|].
      destruct l as [|r l]; simpl.
      * constructor; unfold count_ge; lia.
      * destruct (snd r <=? snd p); constructor; unfold count_ge; [lia|].
        inversion Hhd; assumption.
Qed.

Lemma sort_desc_sorted l : Sorted count_ge (sort_desc l).
Proof.
  induction l as [|p l IH]; simpl; [constructor|].
  apply insert_desc_sorted, IH.
Qed.

(** Pairs of equal count keep their relative order. *)
Lemma insert_desc_filter n p l :
  filter (fun q => snd q =? n) (insert_desc p l) =
  filter (fun q => snd q =? n) (p :: l).
Proof.
  induction l as [|q l IH]; simpl; [reflexivity|].
  destruct (snd q <=? snd p) eqn:E; [reflexivity|].
  apply Nat.leb_gt in E. simpl. rewrite IH. simpl.
  destruct (snd p =? n) eqn:Ep, (snd q =? n) eqn:Eq; try reflexivity.
  apply Nat.eqb_eq in Ep, Eq. lia.
Qed.

Lemma sort_desc_filter n l :
  filter (fun q => snd q =? n) (sort_desc l) = filter (fun q => snd q =? n) l.
Proof.
  induction l as [|p l IH]; simpl; [reflexivity|].
  rewrite insert_desc_filter. simpl. rewrite IH. reflexivity.
Qed.

Lemma existsb_eqb_in (c : ascii) ks : existsb (Ascii.eqb c) ks = true <-> In c ks.
Proof.
  rewrite existsb_exists. split.
  - intros (y & Hy & E). apply Ascii.eqb_eq in E; subst; exact Hy.
  - intros H. exists c; split; [exact H|apply Ascii.eqb_refl].
Qed.

Lemma first_occurrences_app t d :
  first_occurrences (t ++ [d]) = add_key d (first_occurrences t).
Proof. unfold first_occurrences. rewrite fold_left_app. reflexivity. Qed.

Lemma first_occurrences_spec t :
  NoDup (first_occurrences t) /\
  (forall c, In c (first_occurrences t) <-> In c t).
Proof.
  induction t as [|d t IH] using rev_ind; simpl.
  - split; [constructor|]. intros c; simpl; tauto.
  - rewrite first_occurrences_app. destruct IH as [Hnd Hin].
    unfold add_key. destruct (existsb (Ascii.eqb d) _) eqn:E.
    + apply existsb_eqb_in in E. split; [exact Hnd|].
      intros c. rewrite Hin, in_app_iff. simpl.
      split; [tauto|]. intros [H|[<-|[]]]; [exact H|]. apply Hin; exact E.
    + split.
      * apply NoDup_app; [exact Hnd|repeat constructor; simpl; tauto|].
        intros x Hx [<-|[]]. apply Bool.not_true_iff_false in E.
        apply E, existsb_eqb_in, Hx.
      * intros c. rewrite !in_app_iff, Hin. reflexivity.
Qed.

Lemma counter_add_counts t0 keys c :
  NoDup keys ->
  (existsb (Ascii.eqb c) keys = false -> count_occ ascii_dec t0 c = 0) ->
  counter_add c (map (fun k => (k, count_occ ascii_dec t0 k)) keys) =
  map (fun k => (k, count_occ ascii_dec (t0 ++ [c]) k)) (add_key c keys).
Proof.
  unfold add_key. induction keys as [|k keys IH]; intros Hnd H0; simpl.
  - rewrite count_occ_app; simpl. rewrite (H0 eq_refl).
    destruct (ascii_dec c c); [reflexivity|congruence].
  - inversion Hnd as [|? ? Hk Hnd']; subst.
    rewrite (Ascii.eqb_sym c k).
    destruct (Ascii.eqb k c) eqn:E; simpl.
    + apply Ascii.eqb_eq in E; subst k.
      rewrite count_occ_app; simpl. destruct (ascii_dec c c); [|congruence].
      rewrite Nat.add_1_r. f_equal. apply map_ext_in.
      intros x Hx. rewrite count_occ_app; simpl.
      destruct (ascii_dec c x); [subst; contradiction|].
      rewrite Nat.add_0_r; reflexivity.
    + simpl in H0. rewrite Ascii.eqb_sym, E in H0. simpl in H0.
      rewrite (IH Hnd' H0).
      assert (Hk' : count_occ ascii_dec (t0 ++ [c]) k = count_occ ascii_dec t0 k).
      { rewrite count_occ_app; simpl.
        destruct (ascii_dec c k) as [->|]; [rewrite Ascii.eqb_refl in E; discriminate|].
        apply Nat.add_0_r. }
      destruct (existsb (Ascii.eqb c) keys); simpl; rewrite Hk'; reflexivity.
Qed.

(** [Counter(text)]: each distinct character, in the order of its first
    occurrence, with its number of occurrences. *)
Lemma Counter_spec t :
  Counter t = map (fun k => (k, count_occ ascii_dec t k)) (first_occurrences t).
Proof.
  induction t as [|d t IH] using rev_ind; [reflexivity|].
  unfold Counter in *. rewrite fold_left_app, IH. simpl.
  rewrite first_occurrences_app.
  destruct (first_occurrences_spec t) as [Hnd Hin].
  apply counter_add_counts; [exact Hnd|].
  intros E. apply count_occ_not_In. intros Hd.
  apply Bool.not_true_iff_false in E. apply E, existsb_eqb_in, Hin, Hd.
Qed.

(** For a non-empty corpus, [CharacterAtomizer.from_text] numbers the
    distinct characters of the corpus from 0 in an order by decreasing count
    in which characters of equal count keep the order of the counting
    pass. *)
Lemma char_from_text_nonempty t :
  t <> [] ->
  exists pairs,
    char_from_text t =
      Some (combine (map (fun p => [fst p]) pairs) (map Z.of_nat (seq 0 (length pairs)))) /\
    Permutation pairs (Counter t) /\
    Sorted count_ge pairs /\
    (forall n, filter (fun q => snd q =? n) pairs = filter (fun q => snd q =? n) (Counter t)) /\
    NoDup (map fst (Counter t)) /\
    (forall c, In c (map fst (Counter t)) <-> In c t) /\
    (forall c n, In (c, n) (Counter t) -> n = count_occ ascii_dec t c).
Proof.
  intros Ht. exists (sort_desc (Counter t)).
  destruct (first_occurrences_spec t) as [Hnd Hin].
  assert (Hkeys : map fst (Counter t) = first_occurrences t).
  { rewrite Counter_spec, map_map. apply map_id. }
  split; [|split; [apply sort_desc_perm|split; [apply sort_desc_sorted|split;
    [intros n; apply sort_desc_filter|]]]].
  - unfold char_from_text.
    destruct (sort_desc (Counter t)) as [|p ps] eqn:E.
    + exfalso. apply Ht.
      pose proof (sort_desc_perm (Counter t)) as HP. rewrite E in HP.
      apply Permutation_nil in HP. rewrite HP in Hkeys. simpl in Hkeys.
      destruct t as [|d t']; [reflexivity|].
      assert (Hd : In d (first_occurrences (d :: t'))) by (apply Hin; left; reflexivity).
      rewrite <- Hkeys in Hd. destruct Hd.
    + rewrite map_map, length_map. reflexivity.
  - rewrite Hkeys. split; [exact Hnd|split; [exact Hin|]].
    intros c n H. rewrite Counter_spec in H. apply in_map_iff in H as (k & Hk & _).
    injection Hk as <- <-; reflexivity.
Qed.

(** C8: [CharacterAtomizer.from_text] builds no vocabulary for the empty
    corpus: [Counter("")] has no items, and unpacking [zip()] of nothing
    into [atoms, _] raises [ValueError].  It is the only corpus that fails;
    for the others [char_from_text_nonempty] gives the ordering by
    decreasing count, ties in counting order. *)
Theorem char_from_text_fails_iff_empty (t : str) :
  char_from_text t = None <-> t = [].
Proof.
  split.
  - intros H. destruct t as [|d t]; [reflexivity|].
    destruct (char_from_text_nonempty (d :: t)) as (pairs & Hs & _); [discriminate|].
    rewrite Hs in H; discriminate.
  - intros ->; reflexivity.
Qed.

End AtomizerFacts.

(* ------------------------------------------------------------------ *)
(** ** Properties of the kernel driver *)

Module CLDriveFacts.
Import CLDrive.
Local Open Scope nat_scope.

(** Stepping through the monad. *)

Lemma bind_inr {A B} (m : M A) (k : A -> M B) s s' x :
  m s = (s', inr x) -> bind m k s = k x s'.
Proof. intros H; unfold bind; rewrite H; reflexivity. Qed.

Lemma bind_inl {A B} (m : M A) (k : A -> M B) s s' e :
  m s = (s', inl e) -> bind m k s = (s', inl e).
Proof. intros H; unfold bind; rewrite H; reflexivity. Qed.

(** The measurement vectors of a state. *)
Definition stats (s : St) := (wgsizes s, transfers s, runtimes s).

(** A computation that leaves the measurement vectors alone. *)
Definition keeps {A} (m : M A) : Prop := forall s, stats (fst (m s)) = stats s.

(** A computation that, when it returns, has appended exactly one entry to
    each measurement vector, and otherwise has left them alone. *)
Definition once {A} (m : M A) : Prop :=
  forall s, match m s with
            | (s', inr _) => exists w t r,
                stats s' = (wgsizes s ++ [w], transfers s ++ [t], runtimes s ++ [r])
            | (s', inl _) => stats s' = stats s
            end.

Lemma keeps_ret {A} (x : A) : keeps (ret x).
Proof. intros s; reflexivity. Qed.

Lemma keeps_raise {A} e : keeps (A := A) (raise e).
Proof. intros s; reflexivity. Qed.

Lemma keeps_bind {A B} (m : M A) (k : A -> M B) :
  keeps m -> (forall x, keeps (k x)) -> keeps (bind m k).
Proof.
  intros Hm Hk s; unfold bind. specialize (Hm s).
  destruct (m s) as [s1 [e|x]]; simpl in *; [exact Hm|].
  rewrite Hk; exact Hm.
Qed.

Lemma keeps_alloc : keeps alloc.
Proof. intros s; reflexivity. Qed.

Lemma keeps_mem_write o v : keeps (mem_write o v).
Proof. intros s; reflexivity. Qed.

Lemma keeps_mem_read o : keeps (mem_read o).
Proof. intros s; reflexivity. Qed.

Lemma keeps_new_event c : keeps (new_event c).
Proof. intros s; reflexivity. Qed.

Create HintDb keeps.
#[local] Hint Resolve keeps_ret keeps_raise keeps_alloc keeps_mem_write
  keeps_mem_read keeps_new_event : keeps.

Ltac keeps_tac :=
  repeat match goal with
  | |- keeps (bind _ _) => apply keeps_bind; [|intro; cbv beta zeta]
  | |- keeps (match ?x with _ => _ end) => destruct x
  | |- keeps (if ?b then _ else _) => destruct b
  | |- keeps _ => solve [eauto with keeps]
  end.

Section Keeps.
Variable event_profile : nat -> option (Z * Z).
Variable set_args_ok : list DevData -> bool.
Variable kernel_effect :
  list DevData -> list nat -> nat -> list (nat * list Q) -> option (list (nat * list Q)).

Lemma keeps_get_event_time ev : keeps (get_event_time event_profile ev).
Proof. unfold get_event_time. keeps_tac. Qed.

Lemma keeps_cl_buffer h : keeps (cl_buffer h).
Proof. unfold cl_buffer. keeps_tac. Qed.

Lemma keeps_clone_args l : keeps (clone_args l).
Proof.
  induction l as [|a l IH]; simpl; keeps_tac.
  all: try apply keeps_cl_buffer; try exact IH.
Qed.

Lemma keeps_clone P : keeps (clone P).
Proof. unfold clone. keeps_tac. apply keeps_clone_args. Qed.

Lemma keeps_enqueue_copy_h2d d h : keeps (enqueue_copy_h2d d h).
Proof. unfold enqueue_copy_h2d. keeps_tac. Qed.

Lemma keeps_enqueue_copy_d2h d h : keeps (enqueue_copy_d2h d h).
Proof. unfold enqueue_copy_d2h. keeps_tac. Qed.

Lemma keeps_h2d l e : keeps (h2d event_profile l e).
Proof.
  revert e; induction l as [|a l IH]; intros e; simpl; keeps_tac.
  all: try apply keeps_enqueue_copy_h2d; try apply keeps_get_event_time; auto.
Qed.

Lemma keeps_d2h l : keeps (d2h event_profile l).
Proof.
  induction l as [|a l IH]; simpl; keeps_tac.
  all: try apply keeps_enqueue_copy_d2h; try apply keeps_get_event_time; auto.
Qed.

Lemma keeps_launch k g n : keeps (launch kernel_effect k g n).
Proof.
  intros s; unfold launch. destruct kernel_effect; reflexivity.
Qed.

Lemma once_bind {A B} (m : M A) (k : A -> M B) :
  keeps m -> (forall x, once (k x)) -> once (bind m k).
Proof.
  intros Hm Hk s; unfold bind. specialize (Hm s).
  destruct (m s) as [s1 [e|x]]; simpl in Hm; [exact Hm|].
  specialize (Hk x s1). unfold stats in Hm. injection Hm as Hw Ht Hr.
  destruct (k x s1) as [s2 [e|y]].
  - rewrite Hk; unfold stats; rewrite Hw, Ht, Hr; reflexivity.
  - rewrite <- Hw, <- Ht, <- Hr; exact Hk.
Qed.

Lemma once_record {A} w e t (x : A) : once (bind (record_stats w e t) (fun _ => ret x)).
Proof. intros s; simpl. exists w, t, e; reflexivity. Qed.

(** [__call__] appends one entry to each vector when it returns and none
    when it raises. *)
Lemma call_once driver P :
  once (call event_profile set_args_ok kernel_effect driver P).
Proof.
  unfold call.
  apply once_bind; [apply keeps_clone|intros out; cbv beta zeta].
  apply once_bind; [apply keeps_h2d|intros t1; cbv beta zeta].
  apply once_bind; [keeps_tac|intros u].
  apply once_bind; [keeps_tac|intros lsz].
  apply once_bind; [apply keeps_launch|intros ev].
  apply once_bind; [apply keeps_get_event_time|intros t2; cbv beta zeta].
  apply once_bind; [unfold device_to_host; keeps_tac; apply keeps_d2h|intros r].
  apply once_record.
Qed.

Lemma run_calls_lengths driver ps s :
  let (s', n) := run_calls event_profile set_args_ok kernel_effect driver ps s in
  length (wgsizes s') = length (wgsizes s) + n /\
  length (transfers s') = length (transfers s) + n /\
  length (runtimes s') = length (runtimes s) + n.
Proof.
  revert s; induction ps as [|p ps IH]; intros s; simpl.
  - rewrite !Nat.add_0_r; auto.
  - pose proof (call_once driver p s) as Hc.
    destruct (call event_profile set_args_ok kernel_effect driver p s) as [s1 r].
    specialize (IH s1).
    destruct (run_calls event_profile set_args_ok kernel_effect driver ps s1) as [s2 n].
    destruct r as [e|x].
    + unfold stats in Hc. injection Hc as Hw Ht Hr.
      rewrite Hw, Ht, Hr in IH; exact IH.
    + destruct Hc as (w & t & r & Hc). unfold stats in Hc.
      injection Hc as Hw Ht Hr. rewrite Hw, Ht, Hr, !length_app in IH.
      simpl in IH; lia.
Qed.

End Keeps.

(** C9: the three measurement vectors of a [KernelDriver] keep equal
    lengths.  From a freshly constructed driver (the vectors empty), after
    any sequence of [__call__]s, some of which may raise, each vector holds
    exactly one entry per call that returned. *)
Theorem measurement_vectors_equal_length ep sa ke driver ps s :
  let (s', n) := run_calls ep sa ke driver ps (driver_init s) in
  length (wgsizes s') = n /\ length (transfers s') = n /\
  length (runtimes s') = n.
Proof.
  pose proof (run_calls_lengths ep sa ke driver ps (driver_init s)) as H.
  destruct (run_calls ep sa ke driver ps (driver_init s)) as [s' n].
  exact H.
Qed.


Lemma devdata_ne_refl d : devdata_ne d d = false.
Proof.
  destruct d; simpl; rewrite ?Nat.eqb_refl, ?Qeq_bool_refl; reflexivity.
Qed.

Lemma existsb_combine_self (l : list Q) :
  existsb (fun p => negb (Qeq_bool (fst p) (snd p))) (combine l l) = false.
Proof. induction l as [|x l IH]; simpl; rewrite ?Qeq_bool_refl, ?IH; reflexivity. Qed.

(** Without local arguments, a clone equals its original: buffers are
    compared through their host arrays, which the clone shares, and scalars
    by value. *)
Lemma args_eq_clone_args l s s' l' :
  Forall (fun a => hostdata a = None -> is_local (desc a) = false) l ->
  clone_args l s = (s', inr l') -> args_eq l l' = Some true.
Proof.
  revert s s' l'; induction l as [|a l IH]; intros s s' l' Hl H; simpl in H.
  - injection H as _ <-; reflexivity.
  - inversion Hl as [|? ? Ha Hl']; subst.
    unfold bind at 1 in H.
    destruct (hostdata a) as [h|] eqn:Eh.
    + unfold cl_buffer, bind in H. simpl in H.
      destruct (clone_args l _) as [s1 [e|rest]] eqn:Er; [discriminate|].
      unfold ret in H; injection H as _ <-. simpl. rewrite Eh, Nat.eqb_refl, existsb_combine_self.
      simpl. eapply IH; eauto.
    + rewrite (Ha eq_refl) in H. simpl in H; unfold bind in H.
      destruct (clone_args l s) as [s1 [e|rest]] eqn:Er; [discriminate|].
      unfold ret in H; injection H as _ <-. simpl. rewrite Eh, devdata_ne_refl.
      eapply IH; eauto.
Qed.

Lemma payload_eq_clone P s s' P' :
  Forall (fun a => hostdata a = None -> is_local (desc a) = false) (args P) ->
  clone P s = (s', inr P') -> payload_eq P P' = Some true.
Proof.
  intros Hl H. unfold clone, bind in H.
  destruct (clone_args (args P) s) as [s1 [e|l']] eqn:E; [discriminate|].
  unfold ret in H; injection H as _ <-. unfold payload_eq; simpl.
  rewrite Nat.eqb_refl.
  assert (Hlen : length (args P) = length l').
  { clear Hl. revert s s1 l' E; induction (args P) as [|a l IH]; intros s s1 l' E;
      simpl in E.
    - injection E as _ <-; reflexivity.
    - unfold bind at 1 in E.
      destruct (match hostdata a with _ => _ end s) as [s2 [e|d]]; [discriminate|].
      unfold bind in E.
      destruct (clone_args l s2) as [s3 [e|rest]] eqn:Er; [discriminate|].
      unfold ret in E; injection E as _ <-. simpl. f_equal. eapply IH; eauto. }
  rewrite Hlen, Nat.eqb_refl. simpl. eapply args_eq_clone_args; eauto.
Qed.

(** [device_to_host] returns an elapsed time of zero, whatever it copies. *)
Lemma device_to_host_elapsed ep P s s' P' e :
  device_to_host ep P s = (s', inr (P', e)) -> e = 0%Q.
Proof.
  unfold device_to_host, bind. destruct (d2h ep (args P) s) as [s1 [e'|l]];
    [discriminate|]. unfold ret; intros H; injection H as _ _ <-; reflexivity.
Qed.

Lemma create_args_transfer nparray size ds t s s' l t' :
  create_args nparray size ds t s = (s', inr (l, t')) ->
  map desc l = ds /\
  Forall (fun a => hostdata a <> None <->
                   is_pointer (desc a) && negb (is_local (desc a)) = true) l /\
  t' = t + list_sum (map transfer_contrib l).
Proof.
  revert t s s' l t'; induction ds as [|d ds IH]; intros t s s' l t' H; simpl in H.
  - unfold ret in H; injection H as _ <- <-. simpl; auto with arith.
  - destruct (numpy_type d) as [dt|]; [|discriminate].
    destruct (is_pointer d && is_local d) eqn:Eloc.
    + unfold bind in H.
      destruct (nparray _ s) as [s1 [e|h]]; [discriminate|].
      destruct (alloc s1) as [s2 [e|o]]; [discriminate|].
      destruct (create_args nparray size ds t s2) as [s3 [e|[l1 t1]]] eqn:E;
        [discriminate|].
      unfold ret in H; injection H as _ <- <-.
      destruct (IH _ _ _ _ _ E) as (Hd & Hf & Ht). simpl.
      split; [congruence|]. split; [|exact Ht]. constructor; [|exact Hf].
      split; [intros Hn; exfalso; apply Hn; reflexivity|].
      simpl. apply andb_true_iff in Eloc as [_ Eloc]; rewrite Eloc, andb_false_r.
      discriminate.
    + destruct (is_pointer d) eqn:Eptr.
      * unfold bind in H.
        destruct (nparray _ s) as [s1 [e|h]]; [discriminate|].
        destruct (cl_buffer _ s1) as [s2 [e|o]]; [discriminate|].
        simpl in Eloc.
        match type of H with
        | context [create_args nparray size ds ?t0 s2] =>
            destruct (create_args nparray size ds t0 s2) as [s3 [e|[l1 t1]]] eqn:E;
              [discriminate|]
        end.
        unfold ret in H; injection H as _ <- <-.
        destruct (IH _ _ _ _ _ E) as (Hd & Hf & Ht). simpl.
        split; [congruence|]. split; [constructor; [|exact Hf]|].
        -- split; [intros _; simpl; rewrite Eptr, Eloc; reflexivity|discriminate].
        -- unfold transfer_contrib at 1; simpl. rewrite Eptr, Eloc.
           destruct (is_const d); simpl in Ht |- *; lia.
      * unfold bind in H.
        destruct (create_args nparray size ds t s) as [s3 [e|[l1 t1]]] eqn:E;
          [discriminate|].
        unfold ret in H; injection H as _ <- <-.
        destruct (IH _ _ _ _ _ E) as (Hd & Hf & Ht). simpl.
        split; [congruence|]. split; [|exact Ht]. constructor; [|exact Hf].
        split; [intros Hn; exfalso; apply Hn; reflexivity|].
        simpl; rewrite Eptr; discriminate.
Qed.

(** Close [lhs = rhs], where [rhs] may hold existential variables, by
    evaluating [lhs] first. *)
Ltac eval_lhs :=
  match goal with
  | |- ?L = _ =>
      let v := eval vm_compute in L in
      let H := fresh in
      assert (H : L = v) by (vm_compute; reflexivity);
      rewrite H; reflexivity
  end.

Lemma peq_some P P' b s : payload_eq P P' = Some b -> peq P P' s = (s, inr b).
Proof. unfold peq; intros ->; reflexivity. Qed.

(** C7: once [validate]'s four input payloads are built and meet the
    preconditions ([A1in == A2in], [B1in == B2in]), and the four single-shot
    runs return, [validate] raises [E_NO_OUTPUTS] exactly when
    [A1in == A1out] or [B1in == B1out].  The determinism and
    input-sensitivity checks come after it: whatever they would find, the
    outcome is [E_NO_OUTPUTS] in that case. *)
Theorem validate_no_outputs_iff ep sa ke rv driver size fuel s
    s0 s1 s2 s3 s4 A1in A2in B1in B2in A1out B1out A2out B2out e1 e2 :
  validate_inputs rv driver size fuel s = (s0, inr (A1in, A2in, B1in, B2in)) ->
  payload_eq A1in A2in = Some true ->
  payload_eq B1in B2in = Some true ->
  call ep sa ke driver A1in s0 = (s1, inr A1out) ->
  call ep sa ke driver B1in s1 = (s2, inr B1out) ->
  call ep sa ke driver A2in s2 = (s3, inr A2out) ->
  call ep sa ke driver B2in s3 = (s4, inr B2out) ->
  payload_eq A1in A1out = Some e1 ->
  payload_eq B1in B1out = Some e2 ->
  (snd (validate ep sa ke rv driver size fuel s) = inl E_NO_OUTPUTS <->
   e1 = true \/ e2 = true).
Proof.
  intros Hin HA HB H1 H2 H3 H4 He1 He2.
  unfold validate.
  rewrite (bind_inr _ _ _ _ _ Hin); cbv beta iota.
  rewrite (bind_inr _ _ _ _ _ (peq_some _ _ _ s0 HA)); cbv beta iota.
  unfold assert_constraint at 1; rewrite (bind_inr _ _ _ _ _ (eq_refl (s0, inr tt))).
  rewrite (bind_inr _ _ _ _ _ (peq_some _ _ _ s0 HB)); cbv beta iota.
  unfold assert_constraint at 1; rewrite (bind_inr _ _ _ _ _ (eq_refl (s0, inr tt))).
  rewrite (bind_inr _ _ _ _ _ H1), (bind_inr _ _ _ _ _ H2), (bind_inr _ _ _ _ _ H3),
    (bind_inr _ _ _ _ _ H4).
  rewrite (bind_inr _ _ _ _ _ (peq_some _ _ _ s4 He1)).
  destruct e1.
  - unfold assert_constraint at 1; simpl negb.
    rewrite (bind_inl _ _ _ _ _ (eq_refl (s4, inl E_NO_OUTPUTS))).
    simpl; tauto.
  - unfold assert_constraint at 1; simpl negb.
    rewrite (bind_inr _ _ _ _ _ (eq_refl (s4, inr tt))).
    rewrite (bind_inr _ _ _ _ _ (peq_some _ _ _ s4 He2)).
    destruct e2.
    + unfold assert_constraint at 1; simpl negb.
      rewrite (bind_inl _ _ _ _ _ (eq_refl (s4, inl E_NO_OUTPUTS))).
      simpl; tauto.
    + unfold assert_constraint at 1; simpl negb.
      rewrite (bind_inr _ _ _ _ _ (eq_refl (s4, inr tt))).
      split; [|intros [H|H]; discriminate].
      unfold peq, assert_constraint, bind.
      destruct (payload_eq A1out A2out) as [[|]|]; simpl;
        try (intros H; discriminate H).
      destruct (payload_eq B1out B2out) as [[|]|]; simpl;
        try (intros H; discriminate H).
      destruct existsb; simpl; [|intros H; discriminate H].
      destruct (payload_eq A1out B1out) as [[|]|]; simpl; intros H; discriminate H.
Qed.

Lemma validate_no_outputs_iff_witness :
  exists s0 s1 s2 s3 s4 A1in A2in B1in B2in A1out B1out A2out B2out e1 e2,
  validate_inputs random_tenths driver_global 4 3 st_init
    = (s0, inr (A1in, A2in, B1in, B2in)) /\
  payload_eq A1in A2in = Some true /\
  payload_eq B1in B2in = Some true /\
  call profile_2ms accept_args kernel_empty driver_global A1in s0 = (s1, inr A1out) /\
  call profile_2ms accept_args kernel_empty driver_global B1in s1 = (s2, inr B1out) /\
  call profile_2ms accept_args kernel_empty driver_global A2in s2 = (s3, inr A2out) /\
  call profile_2ms accept_args kernel_empty driver_global B2in s3 = (s4, inr B2out) /\
  payload_eq A1in A1out = Some e1 /\
  payload_eq B1in B1out = Some e2 /\
  (snd (validate profile_2ms accept_args kernel_empty random_tenths driver_global 4 3 st_init)
     = inl E_NO_OUTPUTS <-> e1 = true \/ e2 = true).
Proof.
  do 15 eexists.
  do 9 (split; [eval_lhs|]).
  eapply validate_no_outputs_iff; eval_lhs.
Defined.

(** C4: [clone(P) == P] fails for a synthesized payload with a local
    argument.  [__eq__] sends an argument without host data (a local pointer
    or a scalar) to the [devdata] comparison; for a local pointer that
    compares two [cl.LocalMemory] objects by identity, and
    [__deepcopy__] made a fresh one.  So for [kernel void A(local int* c)]
    the payloads of both generators differ from their clones, and the local
    scratch buffer is what tells them apart. *)
Theorem clone_local_payload_differs :
  match create_sequential driver_local 4 st_init with
  | (s1, inr P) =>
      match clone P s1 with
      | (_, inr P') =>
          payload_eq P P' = Some false /\
          map devdata (args P) = [LocalMemory 0 32] /\
          map devdata (args P') = [LocalMemory 1 32]
      | _ => False
      end
  | _ => False
  end /\
  match create_random random_tenths driver_local 4 st_init with
  | (s1, inr P) =>
      match clone P s1 with
      | (_, inr P') => payload_eq P P' = Some false
      | _ => False
      end
  | _ => False
  end.
Proof. vm_compute. repeat split; reflexivity. Qed.

(** C5: [device_to_host] enqueues the read-back of the non-const host
    buffer and queries its event, but returns an elapsed time of zero; on the
    same payload [host_to_device] returns the 2 ms of its copy.  For
    [kernel void A(global int* a, const int n)] with every event lasting
    2 ms. *)
Theorem device_to_host_drops_copy_time :
  match create_sequential driver_global 4 st_init with
  | (s1, inr P) =>
      match device_to_host profile_2ms P s1 with
      | (s2, inr (_, elapsed)) =>
          log s2 = log s1 ++ [CopyD2H 0] /\ elapsed = 0%Q /\
          match snd (get_event_time profile_2ms (next_event s1) s2) with
          | inr t => (t == 2)%Q
          | inl _ => False
          end /\
          match snd (host_to_device profile_2ms P s1) with
          | inr t => (t == 2)%Q
          | inl _ => False
          end
      | _ => False
      end
  | _ => False
  end.
Proof. vm_compute. repeat split; reflexivity. Qed.

(** C6 (as the code has it): the transfer size a generator records is
    the sum, over the kernel's arguments in order, of the host array's
    [nbytes] for a const non-local pointer, twice that for a non-const
    non-local pointer, and zero for local pointers and scalars.  Exactly the
    non-local pointers have a host array.  This holds for every array
    factory, so for the sequential and the random generator alike. *)
Theorem create_payload_transfersize nparray driver size s s' P :
  create_payload nparray driver size s = (s', inr P) ->
  map desc (args P) = prototype driver /\
  Forall (fun a => hostdata a <> None <->
                   is_pointer (desc a) && negb (is_local (desc a)) = true) (args P) /\
  transfersize P = list_sum (map transfer_contrib (args P)).
Proof.
  unfold create_payload, bind, wrap_bad_args.
  destruct (create_args nparray size (prototype driver) 0 s) as [s1 [e|[l t]]] eqn:E;
    [discriminate|].
  unfold ret; intros H; injection H as _ <-; simpl.
  exact (create_args_transfer _ _ _ _ _ _ _ _ E).
Qed.

Lemma create_payload_transfersize_witness :
  exists s' P,
  create_payload np_arange driver_global 4 st_init = (s', inr P) /\
  (map desc (args P) = prototype driver_global /\
   Forall (fun a => hostdata a <> None <->
                    is_pointer (desc a) && negb (is_local (desc a)) = true) (args P) /\
   transfersize P = list_sum (map transfer_contrib (args P))).
Proof.
  do 2 eexists. split; [eval_lhs|].
  match goal with
  | |- context [transfersize ?P] =>
      eapply (create_payload_transfersize np_arange driver_global 4 st_init _ P);
      eval_lhs
  end.
Defined.

(** C6 (counterexample): counting global pointers only misses the other
    non-local pointers.  For [kernel void A(constant float* k, const
    constant float* w)] at size 4 (16 bytes per array), the recorded
    transfer size is 32 + 16 = 48 while the sum over global pointers is 0. *)
Lemma transfersize_constant_pointers :
  match create_sequential driver_constant 4 st_init with
  | (_, inr P) =>
      transfersize P = 48 /\
      list_sum (map global_transfer_contrib (args P)) = 0
  | _ => False
  end.
Proof. vm_compute. split; reflexivity. Qed.

End CLDriveFacts.

(* ------------------------------------------------------------------ *)

Module AtomizerExtra.
Import Atomizer AtomizerFacts.
Local Open Scope nat_scope.

(** *** The character atomizer *)

Lemma char_atomize_forall2 (V : Vocab) text idx :
  char_atomize V text = Some idx ->
  Forall2 (fun s x => vocab_get V s = Some x) (map (fun c => [c]) text) idx.
Proof.
  unfold char_atomize. revert idx; induction text as [|c t IH]; intros idx H; simpl in H.
  - injection H as <-; constructor.
  - destruct (vocab_get V [c]) as [x|] eqn:Ex; [|discriminate].
    destruct (map_option _ t) as [xs|] eqn:Exs; [|discriminate].
    injection H as <-. constructor; [exact Ex|]. apply IH; reflexivity.
Qed.

Lemma concat_singletons (t : str) : concat (map (fun c => [c]) t) = t.
Proof. induction t as [|c t IH]; simpl; [reflexivity|]. rewrite IH; reflexivity. Qed.

Lemma char_roundtrip (V : Vocab) text idx :
  NoDup (map snd V) -> char_atomize V text = Some idx -> deatomize V idx = Some text.
Proof.
  intros Hnd H. unfold deatomize.
  rewrite (map_option_decoder V _ idx Hnd (char_atomize_forall2 V text idx H)).
  rewrite concat_singletons; reflexivity.
Qed.

(** X1: [CharacterAtomizer]: with distinct indices, deatomizing what
    [atomize] returns gives the text back. *)
Theorem char_atomize_roundtrip (V : Vocab) (text : str) (idx : list Z) :
  NoDup (map snd V) ->
  char_atomize V text = Some idx -> deatomize V idx = Some text.
Proof. apply char_roundtrip. Qed.

Lemma char_atomize_roundtrip_witness :
  NoDup (map snd example_vocab) /\
  char_atomize example_vocab (list_ascii_of_string "cab") = Some [3%Z; 1%Z; 2%Z] /\
  deatomize example_vocab [3%Z; 1%Z; 2%Z] = Some (list_ascii_of_string "cab").
Proof.
  split; [exact example_vocab_nodup|]. split; [reflexivity|].
  apply (char_atomize_roundtrip example_vocab (list_ascii_of_string "cab"));
    [exact example_vocab_nodup|reflexivity].
Defined.

Lemma char_atomize_some (V : Vocab) text :
  (forall c, In c text -> exists x, vocab_get V [c] = Some x) ->
  exists idx, char_atomize V text = Some idx.
Proof.
  unfold char_atomize. induction text as [|c t IH]; intros H; simpl; [eauto|].
  destruct (H c (or_introl eq_refl)) as [x ->].
  destruct IH as [xs ->]; [intros d Hd; apply H; right; exact Hd|]. eauto.
Qed.

Lemma vocab_get_combine_in (keys : list str) (vals : list Z) k :
  length keys = length vals -> In k keys -> exists x, vocab_get (combine keys vals) k = Some x.
Proof.
  revert vals; induction keys as [|k' keys IH]; intros [|v vals] Hl Hk; simpl in *;
    try discriminate; try contradiction.
  destruct (str_eqb k k') eqn:E; [eauto|].
  destruct Hk as [<-|Hk]; [rewrite str_eqb_refl in E; discriminate|].
  apply IH; [lia|exact Hk].
Qed.

Lemma NoDup_map_of_nat_seq a n : NoDup (map Z.of_nat (seq a n)).
Proof.
  revert a; induction n as [|n IH]; intros a; simpl; constructor; [|apply IH].
  rewrite in_map_iff. intros (x & Hx & Hin). apply in_seq in Hin. lia.
Qed.

(** X2: a [CharacterAtomizer] built by [from_text] from a corpus atomizes
    that corpus, and deatomizing gives the corpus back. *)
Theorem char_from_text_roundtrip (t : str) (V : Vocab) :
  char_from_text t = Some V ->
  exists idx, char_atomize V t = Some idx /\ deatomize V idx = Some t.
Proof.
  intros H. unfold char_from_text in H.
  destruct (sort_desc (Counter t)) as [|p ps] eqn:E; [discriminate|].
  injection H as <-.
  set (atoms := map fst (p :: ps)).
  assert (Hnd : NoDup (map snd (combine (map (fun c => [c]) atoms)
                   (map Z.of_nat (seq 0 (length atoms)))))).
  { rewrite map_snd_combine by (rewrite !length_map, length_seq; lia).
    apply NoDup_map_of_nat_seq. }
  destruct (char_atomize_some (combine (map (fun c => [c]) atoms)
              (map Z.of_nat (seq 0 (length atoms)))) t) as [idx Hidx].
  { intros c Hc. apply vocab_get_combine_in.
    - rewrite !length_map, length_seq; reflexivity.
    - apply (in_map (fun c => [c])). unfold atoms. rewrite <- E.
      destruct (first_occurrences_spec t) as [_ Hin].
      apply (Permutation_in _ (Permutation_map fst (Permutation_sym (sort_desc_perm _)))).
      rewrite Counter_spec, map_map. simpl. rewrite map_id. apply Hin, Hc. }
  exists idx. split; [exact Hidx|]. apply char_roundtrip; assumption.
Qed.

Lemma char_from_text_roundtrip_witness :
  exists V, char_from_text (list_ascii_of_string "abca") = Some V /\
  exists idx, char_atomize V (list_ascii_of_string "abca") = Some idx /\
              deatomize V idx = Some (list_ascii_of_string "abca").
Proof.
  eexists. split; [reflexivity|].
  apply char_from_text_roundtrip; reflexivity.
Defined.

(** *** The greedy scan as a segmentation *)

Lemma body_inv_nonempty {A} lookup (emit : str -> option A) text i j out i' j' out'
    (strs : list str) :
  i < length text ->
  body lookup emit text i j out = Some (i', j', out') ->
  Forall2 (fun s x => emit s = Some x) strs out ->
  Forall (fun s => s <> []) strs ->
  concat strs = firstn i text ->
  exists strs', Forall2 (fun s x => emit s = Some x) strs' out'
                /\ Forall (fun s => s <> []) strs'
                /\ concat strs' = firstn i' text.
Proof.
  intros Hi Hb Hf Hne Hc.
  assert (Hone : forall x, emit [nth i text "000"%char] = Some x ->
     Forall2 (fun s x => emit s = Some x) (strs ++ [slice text i (S i)])
       (out ++ [x])
     /\ Forall (fun s => s <> []) (strs ++ [slice text i (S i)])
     /\ concat (strs ++ [slice text i (S i)]) = firstn (S i) text).
  { intros x Hx. rewrite <- (slice_single text i "000"%char Hi) in Hx.
    split; [apply Forall2_app; auto|].
    split; [apply Forall_app; split; [exact Hne|]|].
    - constructor; [|constructor]. rewrite (slice_single text i "000"%char Hi).
      discriminate.
    - rewrite concat_app, Hc; simpl; rewrite app_nil_r.
      apply firstn_app_slice; lia. }
  unfold body in Hb.
  destruct (lookup _) as [[|x0 cands]|].
  - destruct (emit _) as [x|] eqn:Hx; [|discriminate].
    injection Hb as <- <- <-. eexists; apply Hone; reflexivity.
  - destruct ((j <=? length text) && _).
    + injection Hb as <- <- <-. eauto.
    + unfold shrink_phase in Hb.
      destruct (shrink text _ i j) as [j0|j0] eqn:Hs.
      * apply shrink_inl in Hs.
        destruct (emit (slice text i j0)) as [x|] eqn:Hx; [|discriminate].
        injection Hb as <- <- <-.
        exists (strs ++ [slice text i j0]). split; [|split].
        -- apply Forall2_app; auto.
        -- apply Forall_app; split; [exact Hne|constructor; [|constructor]].
           unfold slice. destruct (j0 - i) as [|k] eqn:Ek; [lia|].
           destruct (skipn i text) as [|c r] eqn:Er.
           ++ apply (f_equal (@length ascii)) in Er. rewrite length_skipn in Er.
              simpl in Er; lia.
           ++ simpl; discriminate.
        -- rewrite concat_app, Hc; simpl; rewrite app_nil_r.
           apply firstn_app_slice; lia.
      * destruct (emit _) as [x|] eqn:Hx; [|discriminate].
        injection Hb as <- <- <-. eexists; apply Hone; reflexivity.
  - destruct (emit _) as [x|] eqn:Hx; [|discriminate].
    injection Hb as <- <- <-. eexists; apply Hone; reflexivity.
Qed.

Lemma loop_inv_nonempty {A} lookup (emit : str -> option A) text :
  forall fuel i j out res (strs : list str),
  loop lookup emit text fuel i j out = Done res ->
  Forall2 (fun s x => emit s = Some x) strs out ->
  Forall (fun s => s <> []) strs ->
  concat strs = firstn i text ->
  exists strs', Forall2 (fun s x => emit s = Some x) strs' res
                /\ Forall (fun s => s <> []) strs'
                /\ concat strs' = text.
Proof.
  induction fuel as [|fuel IH]; intros i j out res strs Hl Hf Hne Hc; simpl in Hl.
  - destruct (i <? length text) eqn:Hi; [discriminate|].
    injection Hl as <-. apply Nat.ltb_ge in Hi.
    exists strs; split; [exact Hf|split; [exact Hne|]].
    rewrite Hc. apply firstn_all2; exact Hi.
  - destruct (i <? length text) eqn:Hi.
    + apply Nat.ltb_lt in Hi.
      destruct (body lookup emit text i j out) as [[[i' j'] out']|] eqn:Hb;
        [|discriminate].
      destruct (body_inv_nonempty _ _ _ _ _ _ _ _ _ strs Hi Hb Hf Hne Hc)
        as (s' & Hf' & Hne' & Hc').
      eapply IH; eauto.
    + injection Hl as <-. apply Nat.ltb_ge in Hi.
      exists strs; split; [exact Hf|split; [exact Hne|]].
      rewrite Hc. apply firstn_all2; exact Hi.
Qed.

Lemma length_concat_nonempty (strs : list str) :
  Forall (fun s => s <> []) strs -> length strs <= length (concat strs).
Proof.
  induction 1 as [|s strs Hs _ IH]; simpl; [lia|].
  rewrite length_app. destruct s; [contradiction|simpl; lia].
Qed.

(** X3: [GreedyAtomizer.atomize] cuts the text into non-empty pieces, each
    a key of the vocabulary, and returns their indices; so it returns at most
    [len(text)] indices, each a value of the vocabulary. *)
Theorem greedy_atomize_segmentation (V : Vocab) (text : str) (idx : list Z) :
  atomize V text = Done idx ->
  (exists atoms, Forall2 (fun s x => In (s, x) V) atoms idx /\
                 Forall (fun s => s <> []) atoms /\ concat atoms = text) /\
  length idx <= length text /\
  Forall (fun x => In x (map snd V)) idx.
Proof.
  intros H. unfold atomize in H.
  destruct (loop_inv_nonempty _ _ _ _ _ _ _ _ [] H (Forall2_nil _) (Forall_nil _) eq_refl)
    as (atoms & Hf & Hne & Hc).
  assert (Hf' : Forall2 (fun s x => In (s, x) V) atoms idx).
  { eapply Forall2_impl; [|exact Hf]. intros s x; apply vocab_get_in. }
  split; [exists atoms; auto|]. split.
  - rewrite <- (Forall2_length Hf), <- Hc. apply length_concat_nonempty, Hne.
  - clear -Hf'. induction Hf' as [|s x atoms idx Hin _ IH]; constructor; [|exact IH].
    apply (in_map snd) in Hin; exact Hin.
Qed.

Lemma greedy_atomize_segmentation_witness :
  atomize example_vocab (list_ascii_of_string "abc") = Done [0%Z; 3%Z] /\
  ((exists atoms, Forall2 (fun s x => In (s, x) example_vocab) atoms [0%Z; 3%Z] /\
                  Forall (fun s => s <> []) atoms /\
                  concat atoms = list_ascii_of_string "abc") /\
   length [0%Z; 3%Z] <= length (list_ascii_of_string "abc") /\
   Forall (fun x => In x (map snd example_vocab)) [0%Z; 3%Z]).
Proof.
  split; [vm_compute; reflexivity|].
  apply greedy_atomize_segmentation; vm_compute; reflexivity.
Defined.

(** *** Without multi-character atoms the greedy scan reads characters *)

Lemma lookup_get_single (V : Vocab) c :
  (forall k, In k (map fst V) -> length k <= 1) -> lookup_get V c = None.
Proof.
  intros H. unfold lookup_get, multichars.
  assert (Hm : filter (fun k => 1 <? length k) (map fst V) = []).
  { induction (map fst V) as [|k ks IH]; simpl; [reflexivity|].
    destruct (1 <? length k) eqn:E.
    - apply Nat.ltb_lt in E. specialize (H k (or_introl eq_refl)). lia.
    - apply IH. intros k' Hk'; apply H; right; exact Hk'. }
  rewrite Hm. reflexivity.
Qed.

Lemma skipn_nth_cons {T} (l : list T) i d :
  i < length l -> skipn i l = nth i l d :: skipn (S i) l.
Proof.
  revert i; induction l as [|x l IH]; intros i Hi; simpl in Hi; [lia|].
  destruct i as [|i]; [reflexivity|]. simpl. apply IH; lia.
Qed.

Lemma loop_chars {A} lookup (emit : str -> option A) text :
  (forall c, lookup c = None) ->
  forall fuel i j out, length text - i < fuel ->
  loop lookup emit text fuel i j out =
  match map_option (fun c => emit [c]) (skipn i text) with
  | Some l => Done (out ++ l)
  | None => Vocab_error
  end.
Proof.
  intros Hl. induction fuel as [|fuel IH]; intros i j out Hf; [lia|].
  simpl. destruct (i <? length text) eqn:Hi.
  - apply Nat.ltb_lt in Hi. unfold body. rewrite Hl.
    rewrite (skipn_nth_cons text i "000"%char Hi). cbn [map_option].
    destruct (emit [nth i text "000"%char]) as [x|].
    + rewrite IH by lia.
      destruct (map_option _ (skipn (S i) text)); [|reflexivity].
      rewrite <- app_assoc; reflexivity.
    + reflexivity.
  - apply Nat.ltb_ge in Hi. rewrite skipn_all2 by exact Hi. simpl.
    rewrite app_nil_r; reflexivity.
Qed.

(** X4: when no key of the vocabulary is longer than one character,
    [GreedyAtomizer.atomize] agrees with [CharacterAtomizer.atomize]: the
    same indices, and [VocabError] on the same texts. *)
Theorem greedy_atomize_single_chars (V : Vocab) (text : str) :
  (forall k, In k (map fst V) -> length k <= 1) ->
  atomize V text =
  match char_atomize V text with
  | Some idx => Done idx
  | None => Vocab_error
  end.
Proof.
  intros H. unfold atomize, char_atomize.
  rewrite (loop_chars _ _ _ (fun c => lookup_get_single V c H)) by (unfold scan_fuel; nia).
  reflexivity.
Qed.

Lemma greedy_atomize_single_chars_witness :
  (forall k, In k (map fst char_vocab) -> length k <= 1) /\
  atomize char_vocab (list_ascii_of_string "cab") = Done [2%Z; 0%Z; 1%Z] /\
  char_atomize char_vocab (list_ascii_of_string "cab") = Some [2%Z; 0%Z; 1%Z].
Proof.
  assert (H : forall k, In k (map fst char_vocab) -> length k <= 1).
  { simpl; intros k [<-|[<-|[<-|[]]]]; simpl; lia. }
  split; [exact H|]. split; [|reflexivity].
  rewrite (greedy_atomize_single_chars char_vocab _ H). reflexivity.
Defined.

(** *** The decoder *)

Lemma decoder_snoc (V : Vocab) k v :
  decoder (V ++ [(k, v)]) = (v, k) :: decoder V.
Proof. unfold decoder. rewrite map_app, rev_app_distr. reflexivity. Qed.

(** X5: [self.decoder] maps an index to the key of the last vocabulary item
    with that index: later items overwrite earlier ones. *)
Theorem decoder_last_wins (V : Vocab) (n : Z) (k : str) :
  decoder_get V n = Some k <->
  exists V1 V2, V = V1 ++ (k, n) :: V2 /\ ~ In n (map snd V2).
Proof.
  induction V as [|[k' v'] V IH] using rev_ind.
  - unfold decoder_get; simpl. split; [discriminate|].
    intros (V1 & V2 & H & _). destruct V1; discriminate.
  - unfold decoder_get in *. rewrite decoder_snoc. simpl.
    destruct (Z.eqb v' n) eqn:E.
    + apply Z.eqb_eq in E; subst v'. split.
      * intros H; injection H as <-. exists V, []. split; [reflexivity|simpl; tauto].
      * intros (V1 & V2 & H & Hn). f_equal.
        destruct V2 as [|x V2] using rev_ind.
        -- apply app_inj_tail in H as [_ H]. congruence.
        -- exfalso. apply Hn. rewrite app_comm_cons, app_assoc in H.
           apply app_inj_tail in H as [_ <-]. rewrite map_app. simpl.
           apply in_or_app; right; left; reflexivity.
    + rewrite IH. split.
      * intros (V1 & V2 & H & Hn). exists V1, (V2 ++ [(k', v')]). split.
        -- rewrite H, <- app_assoc. reflexivity.
        -- rewrite map_app. simpl. rewrite in_app_iff. simpl.
           intros [H'|[H'|[]]]; [contradiction|]. subst; rewrite Z.eqb_refl in E.
           discriminate.
      * intros (V1 & V2 & H & Hn).
        destruct V2 as [|x V2] using rev_ind.
        -- apply app_inj_tail in H as [_ H]. injection H as _ ->.
           rewrite Z.eqb_refl in E; discriminate.
        -- rewrite app_comm_cons, app_assoc in H. apply app_inj_tail in H as [H <-].
           exists V1, V2. split; [exact H|]. rewrite map_app in Hn.
           intros Hin; apply Hn, in_or_app; left; exact Hin.
Qed.

(** *** [GreedyAtomizer.from_text] *)

Lemma str_ltb_irrefl (a : str) : str_ltb a a = false.
Proof.
  induction a as [|c a IH]; simpl; [reflexivity|].
  rewrite Nat.ltb_irrefl, Ascii.eqb_refl. exact IH.
Qed.

Lemma str_ltb_cons x a y b :
  str_ltb (x :: a) (y :: b) = true <->
  nat_of_ascii x < nat_of_ascii y \/ (x = y /\ str_ltb a b = true).
Proof.
  simpl. destruct (Nat.ltb_spec (nat_of_ascii x) (nat_of_ascii y)).
  - split; [auto|reflexivity].
  - destruct (Ascii.eqb_spec x y) as [->|Hne].
    + split; [auto|]. intros [Hl|[_ Hr]]; [lia|exact Hr].
    + split; [discriminate|]. intros [Hl|[Hr _]]; [lia|congruence].
Qed.

Lemma str_ltb_trans (a b c : str) :
  str_ltb a b = true -> str_ltb b c = true -> str_ltb a c = true.
Proof.
  revert b c; induction a as [|x a IH]; intros [|y b] [|z c]; try discriminate;
    try reflexivity.
  rewrite !str_ltb_cons. intros [H1|[-> H1]] [H2|[-> H2]]; auto.
  - left; lia.
  - right; split; [reflexivity|eauto].
Qed.

Lemma str_ltb_total (a b : str) :
  a <> b -> str_ltb a b = true \/ str_ltb b a = true.
Proof.
  revert b; induction a as [|x a IH]; intros [|y b] Hne; simpl; auto.
  destruct (Ascii.eqb x y) eqn:Exy.
    + apply Ascii.eqb_eq in Exy; subst y. rewrite Nat.ltb_irrefl, Ascii.eqb_refl.
      apply IH. congruence.
    + rewrite (Ascii.eqb_sym y x), Exy.
      assert (Hn : nat_of_ascii x <> nat_of_ascii y).
      { intros Hn. apply (f_equal ascii_of_nat) in Hn.
        rewrite !ascii_nat_embedding in Hn. subst; rewrite Ascii.eqb_refl in Exy.
        discriminate. }
      destruct (Nat.ltb_spec (nat_of_ascii x) (nat_of_ascii y)); [auto|].
      right. destruct (Nat.ltb_spec (nat_of_ascii y) (nat_of_ascii x)); [reflexivity|lia].
Qed.

Definition str_lt (a b : str) : Prop := str_ltb a b = true.

Lemma insert_str_perm x l : Permutation (insert_str x l) (x :: l).
Proof.
  induction l as [|y l IH]; simpl; [reflexivity|].
  destruct (str_ltb x y); [reflexivity|].
  rewrite IH. apply perm_swap.
Qed.

Lemma sort_strs_perm l : Permutation (sort_strs l) l.
Proof.
  induction l as [|x l IH]; simpl; [reflexivity|].
  unfold sort_strs in *; simpl. rewrite insert_str_perm, IH. reflexivity.
Qed.

Lemma insert_str_sorted x l :
  ~ In x l -> Sorted str_lt l -> Sorted str_lt (insert_str x l).
Proof.
  induction l as [|y l IH]; intros Hx Hs; simpl; [repeat constructor|].
  destruct (str_ltb x y) eqn:Exy.
  - constructor; [exact Hs|constructor; exact Exy].
  - assert (Hyx : str_ltb y x = true).
    { destruct (str_ltb_total x y) as [H|H]; [intros ->; apply Hx; left; reflexivity|congruence|exact H]. }
    inversion Hs; subst. constructor.
    + apply IH; [intros H; apply Hx; right; exact H|assumption].
    + destruct l as [|z l]; simpl; [constructor; exact Hyx|].
      destruct (str_ltb x z); constructor; [exact Hyx|].
      inversion H2; assumption.
Qed.

Lemma sort_strs_sorted l : NoDup l -> Sorted str_lt (sort_strs l).
Proof.
  induction l as [|x l IH]; intros Hnd; simpl; [constructor|].
  inversion Hnd; subst. unfold sort_strs in *; simpl.
  apply insert_str_sorted; [|apply IH; assumption].
  intros Hin. apply H1. eapply Permutation_in; [apply sort_strs_perm|exact Hin].
Qed.

Lemma dedup_strs_spec l : NoDup (dedup_strs l) /\ (forall k, In k (dedup_strs l) <-> In k l).
Proof.
  induction l as [|x l [IHnd IHin]]; simpl; [split; [constructor|tauto]|].
  destruct (existsb (str_eqb x) l) eqn:E.
  - apply existsb_exists in E as (y & Hy & Exy). apply str_eqb_eq in Exy; subst y.
    split; [exact IHnd|]. intros k; rewrite IHin. split; [tauto|].
    intros [<-|H]; assumption.
  - split.
    + constructor; [|exact IHnd]. rewrite IHin. intros Hin.
      assert (existsb (str_eqb x) l = true) by
        (apply existsb_exists; exists x; split; [exact Hin|apply str_eqb_refl]).
      congruence.
    + intros k; simpl; rewrite IHin; tauto.
Qed.

(** X6: [GreedyAtomizer.from_text] fails exactly when tokenizing the corpus
    with the seed vocabulary fails; otherwise its atoms are the distinct
    tokens of the corpus in strictly increasing order, numbered 0, 1, 2, ...
    in that order. *)
Theorem greedy_from_text_vocab (text : str) :
  match greedy_from_text text, tokenize opencl_vocab text with
  | Some V, Some toks =>
      StronglySorted (fun a b => str_ltb a b = true) (map fst V) /\
      (forall k, In k (map fst V) <-> In k toks) /\
      map snd V = map Z.of_nat (seq 0 (length V))
  | None, None => True
  | _, _ => False
  end.
Proof.
  unfold greedy_from_text. destruct (tokenize opencl_vocab text) as [toks|]; [|exact I].
  destruct (dedup_strs_spec toks) as [Hnd Hin].
  assert (Hlen : length (sort_strs (dedup_strs toks)) =
                 length (map Z.of_nat (seq 0 (length (sort_strs (dedup_strs toks)))))).
  { rewrite length_map, length_seq; reflexivity. }
  rewrite (map_fst_combine _ _ Hlen), (map_snd_combine _ _ Hlen).
  rewrite length_combine, <- Hlen, Nat.min_id.
  split; [|split; [|reflexivity]].
  - apply Sorted_StronglySorted; [intros a b c; apply str_ltb_trans|].
    apply sort_strs_sorted; exact Hnd.
  - intros k. rewrite <- Hin. split; apply Permutation_in;
      [|symmetry]; apply sort_strs_perm.
Qed.

End AtomizerExtra.

Module CLDriveExtra.
Import CLDrive CLDriveFacts.
Local Open Scope nat_scope.



Lemma args_eq_none xs ys :
  args_eq xs ys = None ->
  exists i x y, nth_error xs i = Some x /\ nth_error ys i = Some y /\
                hostdata x <> None /\ hostdata y = None.
Proof.
  revert ys; induction xs as [|x xs IH]; intros [|y ys] H; simpl in H;
    try discriminate.
  destruct (hostdata x) as [hx|] eqn:Ex.
  - destruct (hostdata y) as [hy|] eqn:Ey.
    + destruct (negb _); [discriminate|]. destruct (existsb _ _); [discriminate|].
      destruct (IH ys H) as (i & x' & y' & H1 & H2 & H3 & H4).
      exists (S i), x', y'; auto.
    + exists 0, x, y. simpl. rewrite Ex. repeat split; [discriminate|exact Ey].
  - destruct (devdata_ne _ _); [discriminate|].
    destruct (IH ys H) as (i & x' & y' & H1 & H2 & H3 & H4).
    exists (S i), x', y'; auto.
Qed.

(** X8: [KernelPayload.__eq__] raises (the [TypeError] of [len(None)]) only
    when the two payloads have the same context and number of arguments and,
    at some position, the left payload's argument has a host array while the
    right payload's argument has none. *)
Theorem payload_eq_type_error (P Q : Payload) :
  payload_eq P Q = None ->
  context P = context Q /\ length (args P) = length (args Q) /\
  exists i x y, nth_error (args P) i = Some x /\ nth_error (args Q) i = Some y /\
                hostdata x <> None /\ hostdata y = None.
Proof.
  unfold payload_eq.
  destruct (Nat.eqb_spec (context P) (context Q)); simpl; [|discriminate].
  destruct (Nat.eqb_spec (length (args P)) (length (args Q))); simpl; [|discriminate].
  intros H. split; [assumption|]. split; [assumption|]. apply args_eq_none, H.
Qed.

Lemma payload_eq_type_error_witness :
  let P := {| context := 7; args := [arg_with_host]; ndrange := [4]; transfersize := 32 |} in
  let Q := {| context := 7; args := [arg_without_host]; ndrange := [4]; transfersize := 32 |} in
  payload_eq P Q = None /\ payload_eq Q P = Some false /\
  (context P = context Q /\ length (args P) = length (args Q) /\
   exists i x y, nth_error (args P) i = Some x /\ nth_error (args Q) i = Some y /\
                 hostdata x <> None /\ hostdata y = None).
Proof.
  intros P Q. split; [reflexivity|]. split; [reflexivity|].
  apply payload_eq_type_error. reflexivity.
Defined.

(** What [__deepcopy__] makes of one argument [a]: the copy [a'] keeps the
    descriptor and the host array; a host array gets a new buffer holding
    its values (in the final device memory [s']), a local argument without
    host data a new local memory of the same size, and any other argument
    the same device data. *)
Definition cloned_arg (s' : St) (a a' : KernelArg) : Prop :=
  desc a' = desc a /\ hostdata a' = hostdata a /\
  match hostdata a with
  | Some h =>
      flags a' = flags a /\ bufsize a' = 0 /\
      exists o, devdata a' = Buffer o /\ snd (mem_read o s') = inr (h_vals h)
  | None =>
      flags a' = None /\
      if is_local (desc a) then
        bufsize a' = bufsize a /\ exists o, devdata a' = LocalMemory o (bufsize a)
      else devdata a' = devdata a /\ bufsize a' = 0
  end.

(** The objects [__deepcopy__] creates for one argument. *)
Definition new_objs (a a' : KernelArg) : list nat :=
  match hostdata a, devdata a' with
  | Some _, Buffer o => [o]
  | None, LocalMemory o _ => if is_local (desc a) then [o] else []
  | _, _ => []
  end.

(** Device memory grows by entries for objects created in between. *)
Definition mem_ext (s s' : St) : Prop :=
  next_obj s <= next_obj s' /\
  exists X, dev_mem s' = X ++ dev_mem s /\
            Forall (fun p => next_obj s <= fst p < next_obj s') X.

Lemma mem_read_state o s : mem_read o s =
  (s, inr match find (fun p => Nat.eqb (fst p) o) (dev_mem s) with
          | Some (_, v) => v
          | None => []
          end).
Proof. reflexivity. Qed.

Lemma find_app_skip (X Y : list (nat * list Q)) o :
  Forall (fun p => fst p <> o) X ->
  find (fun p => Nat.eqb (fst p) o) (X ++ Y) = find (fun p => Nat.eqb (fst p) o) Y.
Proof.
  induction 1 as [|p X Hp HX IH]; simpl; [reflexivity|].
  destruct (Nat.eqb_spec (fst p) o); [contradiction|exact IH].
Qed.

(** Reading an object is unaffected by entries for later objects. *)
Lemma mem_read_ext o vals s s' :
  mem_ext s s' -> o < next_obj s ->
  snd (mem_read o s) = inr vals -> snd (mem_read o s') = inr vals.
Proof.
  intros [_ (X & HX & HF)] Ho H. rewrite mem_read_state in *. simpl in *.
  injection H as H. rewrite HX, find_app_skip; [rewrite H; reflexivity|].
  eapply Forall_impl; [|exact HF]. simpl; intros p Hp; lia.
Qed.

Lemma mem_ext_refl s : mem_ext s s.
Proof. split; [lia|]. exists []; split; [reflexivity|constructor]. Qed.

Lemma mem_ext_trans s1 s2 s3 : mem_ext s1 s2 -> mem_ext s2 s3 -> mem_ext s1 s3.
Proof.
  intros [H12 (X & HX & HF)] [H23 (Y & HY & HG)]. split; [lia|].
  exists (Y ++ X). split; [rewrite HY, HX, app_assoc; reflexivity|].
  apply Forall_app; split.
  - eapply Forall_impl; [|exact HG]. simpl; intros p Hp; lia.
  - eapply Forall_impl; [|exact HF]. simpl; intros p Hp; lia.
Qed.

Lemma cl_buffer_spec h s :
  cl_buffer h s =
  ({| next_obj := S (next_obj s); dev_mem := (next_obj s, h_vals h) :: dev_mem s;
      next_event := next_event s; rng := rng s; log := log s;
      wgsizes := wgsizes s; transfers := transfers s; runtimes := runtimes s |},
   inr (next_obj s)).
Proof. reflexivity. Qed.

Lemma clone_args_spec l s s' l' :
  clone_args l s = (s', inr l') ->
  mem_ext s s' /\ Forall2 (cloned_arg s') l l' /\
  concat (map (fun p => new_objs (fst p) (snd p)) (combine l l')) =
    seq (next_obj s) (next_obj s' - next_obj s) /\
  next_event s' = next_event s /\ log s' = log s /\ rng s' = rng s.
Proof.
  revert s s' l'; induction l as [|a l IH]; intros s s' l' H; simpl in H.
  - injection H as <- <-. split; [apply mem_ext_refl|].
    split; [constructor|]. simpl; rewrite Nat.sub_diag; auto.
  - unfold bind at 1 in H. destruct (hostdata a) as [h|] eqn:Eh.
    + rewrite (bind_inr _ _ _ _ _ (cl_buffer_spec h s)) in H. unfold ret at 1 in H.
      cbv beta iota in H. unfold bind in H.
      destruct (clone_args l _) as [s1 [e|rest]] eqn:Er; [discriminate|].
      injection H as Hs Hl; subst s1 l'.
      destruct (IH _ _ _ Er) as (Hm & Hf & Ho & Hev & Hlog & Hrng); simpl in *.
      split; [|split; [|split]].
      * eapply mem_ext_trans; [|exact Hm]. split; [simpl; lia|].
        exists [(next_obj s, h_vals h)]. split; [reflexivity|].
        constructor; [simpl; lia|constructor].
      * constructor; [|exact Hf]. unfold cloned_arg; simpl. rewrite Eh.
        repeat split; auto. exists (next_obj s); split; [reflexivity|].
        eapply mem_read_ext; [exact Hm|simpl; lia|].
        rewrite mem_read_state; simpl. rewrite Nat.eqb_refl; reflexivity.
      * unfold new_objs at 1; simpl. rewrite Eh. simpl. rewrite Ho.
        destruct Hm as [Hle _]; simpl in Hle.
        replace (next_obj s' - next_obj s) with (S (next_obj s' - S (next_obj s))) by lia.
        reflexivity.
      * auto.
    + destruct (is_local (desc a)) eqn:El.
      * unfold alloc, bind at 1 in H. cbv beta iota in H. unfold ret at 1 in H.
        unfold bind in H.
        destruct (clone_args l _) as [s1 [e|rest]] eqn:Er; [discriminate|].
        injection H as Hs Hl; subst s1 l'.
        destruct (IH _ _ _ Er) as (Hm & Hf & Ho & Hev & Hlog & Hrng); simpl in *.
        split; [|split; [|split]].
        -- eapply mem_ext_trans; [|exact Hm]. split; [simpl; lia|].
           exists []. split; [reflexivity|constructor].
        -- constructor; [|exact Hf]. unfold cloned_arg; simpl. rewrite Eh, El.
           repeat split; auto. eexists; reflexivity.
        -- unfold new_objs at 1; simpl. rewrite Eh, El. simpl. rewrite Ho.
           destruct Hm as [Hle _]; simpl in Hle.
           replace (next_obj s' - next_obj s) with (S (next_obj s' - S (next_obj s))) by lia.
           reflexivity.
        -- auto.
      * unfold ret at 1 in H. cbv beta iota in H. unfold bind in H.
        destruct (clone_args l s) as [s1 [e|rest]] eqn:Er; [discriminate|].
        injection H as Hs Hl; subst s1 l'.
        destruct (IH _ _ _ Er) as (Hm & Hf & Ho & Hev & Hlog & Hrng); simpl in *.
        split; [exact Hm|split; [|split]].
        -- constructor; [|exact Hf]. unfold cloned_arg; simpl. rewrite Eh, El.
           repeat split; auto.
        -- unfold new_objs at 1; simpl. rewrite Eh. destruct (devdata a); rewrite ?El; exact Ho.
        -- auto.
Qed.



(** *** [_create_payload] *)










(** *** Transfers *)

Definition has_host (a : KernelArg) : bool :=
  match hostdata a with Some _ => true | None => false end.

(** The arguments [device_to_host] copies back. *)
Definition copies_back (a : KernelArg) : bool :=
  match hostdata a with Some _ => negb (is_const (desc a)) | None => false end.

(** An event's profiled duration in milliseconds. *)
Definition event_ms (ep : nat -> option (Z * Z)) (ev : nat) (tm : Q) : Prop :=
  exists tstart tend, ep ev = Some (tstart, tend) /\
                      tm = (inject_Z (tend - tstart) / inject_Z 1000000)%Q.

Lemma get_event_time_inr ep ev s s' tm :
  get_event_time ep ev s = (s', inr tm) -> s' = s /\ event_ms ep ev tm.
Proof.
  unfold get_event_time. destruct (ep ev) as [[a b]|] eqn:E; [|discriminate].
  unfold ret; intros H; injection H as <- <-. split; [reflexivity|].
  exists a, b; auto.
Qed.

Lemma h2d_spec ep l e s s' t :
  h2d ep l e s = (s', inr t) ->
  exists cs : list (nat * HostArray),
    map (fun a => (devdata a, hostdata a)) (filter has_host l) =
      map (fun c => (Buffer (fst c), Some (snd c))) cs /\
    log s' = log s ++ map (fun c => CopyH2D (fst c)) cs /\
    dev_mem s' = rev (map (fun c => (fst c, h_vals (snd c))) cs) ++ dev_mem s /\
    next_event s' = next_event s + length cs /\
    next_obj s' = next_obj s /\
    exists ts, Forall2 (event_ms ep) (seq (next_event s) (length cs)) ts /\
               t = fold_left Qplus ts e.
Proof.
  revert e s; induction l as [|a l IH]; intros e s H; simpl in H.
  - injection H as <- <-. exists []. simpl. rewrite app_nil_r, Nat.add_0_r.
    repeat split; auto. exists []; split; [constructor|reflexivity].
  - destruct (hostdata a) as [h|] eqn:Eh.
    + unfold bind at 1 in H. unfold enqueue_copy_h2d at 1 in H.
      destruct (devdata a) as [|o n|o|dt v] eqn:Ed; try discriminate.
      cbn [mem_write new_event bind] in H.
      match type of H with context [bind (get_event_time ep ?ev) ?k ?s0] =>
        destruct (get_event_time ep ev s0) as [s1 [err|tm]] eqn:Et;
        [rewrite (bind_inl _ _ _ _ _ Et) in H; discriminate|rewrite (bind_inr _ _ _ _ _ Et) in H] end.
      apply get_event_time_inr in Et as [-> Hms].
      destruct (IH _ _ H) as (cs & Hc & Hlog & Hmem & Hev & Hobj & ts & Hts & Ht).
      exists ((o, h) :: cs).
      replace (filter has_host (a :: l)) with (a :: filter has_host l)
        by (cbn [filter]; unfold has_host; rewrite Eh; reflexivity).
      simpl in *. rewrite Ed, Eh, Hc.
      repeat split.
      * rewrite Hlog, <- app_assoc; reflexivity.
      * rewrite Hmem, <- app_assoc; reflexivity.
      * lia.
      * exact Hobj.
      * exists (tm :: ts). split; [constructor; assumption|exact Ht].
    + destruct (IH _ _ H) as (cs & Hc & Hrest). exists cs.
      replace (filter has_host (a :: l)) with (filter has_host l)
        by (cbn [filter]; unfold has_host; rewrite Eh; reflexivity).
      split; [exact Hc|exact Hrest].
Qed.

(** X12: when [host_to_device] returns, every argument with a host array
    has a buffer as device data; their values have been written to those
    buffers, one copy command enqueued per such argument in order, and the
    returned time is the sum of the profiled durations of those copies. *)
Theorem host_to_device_spec ep P s s' t :
  host_to_device ep P s = (s', inr t) ->
  exists cs : list (nat * HostArray),
    map (fun a => (devdata a, hostdata a)) (filter has_host (args P)) =
      map (fun c => (Buffer (fst c), Some (snd c))) cs /\
    log s' = log s ++ map (fun c => CopyH2D (fst c)) cs /\
    dev_mem s' = rev (map (fun c => (fst c, h_vals (snd c))) cs) ++ dev_mem s /\
    exists ts, Forall2 (event_ms ep) (seq (next_event s) (length cs)) ts /\
               t = fold_left Qplus ts 0%Q.
Proof.
  intros H. destruct (h2d_spec _ _ _ _ _ _ H) as (cs & H1 & H2 & H3 & _ & _ & H4).
  exists cs; auto.
Qed.

Lemma host_to_device_spec_witness :
  exists s1 P s' t,
  create_sequential driver_global 4 st_init = (s1, inr P) /\
  host_to_device profile_2ms P s1 = (s', inr t) /\
  (exists cs : list (nat * HostArray),
    map (fun a => (devdata a, hostdata a)) (filter has_host (args P)) =
      map (fun c => (Buffer (fst c), Some (snd c))) cs /\
    log s' = log s1 ++ map (fun c => CopyH2D (fst c)) cs /\
    dev_mem s' = rev (map (fun c => (fst c, h_vals (snd c))) cs) ++ dev_mem s1 /\
    exists ts, Forall2 (event_ms profile_2ms) (seq (next_event s1) (length cs)) ts /\
               t = fold_left Qplus ts 0%Q).
Proof.
  do 4 eexists. split; [eval_lhs|]. split; [eval_lhs|].
  match goal with
  | |- exists cs, map _ (filter has_host (args ?P)) = _ /\ log ?s2 = log ?s1 ++ _ /\ _ /\
                  exists ts, _ /\ ?t = _ =>
      apply (host_to_device_spec profile_2ms P s1 s2 t); eval_lhs
  end.
Defined.

(** What [device_to_host] makes of one argument, [s] being the state it
    starts from. *)
Definition copied_back (s : St) (a a' : KernelArg) : Prop :=
  desc a' = desc a /\ devdata a' = devdata a /\ bufsize a' = bufsize a /\
  flags a' = flags a /\
  match hostdata a with
  | Some h =>
      if is_const (desc a) then hostdata a' = Some h
      else exists o vals, devdata a = Buffer o /\ snd (mem_read o s) = inr vals /\
                          hostdata a' = Some {| h_dtype := h_dtype h; h_vals := vals |}
  | None => hostdata a' = None
  end.

Lemma copied_back_mem s1 s a a' :
  dev_mem s1 = dev_mem s -> copied_back s1 a a' -> copied_back s a a'.
Proof.
  intros Hm (H1 & H2 & H3 & H4 & H5). repeat split; auto.
  destruct (hostdata a); [|exact H5]. destruct (is_const (desc a)); [exact H5|].
  destruct H5 as (o & vals & Ho & Hr & Hh). exists o, vals. repeat split; auto.
  rewrite mem_read_state in *; simpl in *. rewrite <- Hm; exact Hr.
Qed.

Lemma d2h_spec ep l s s' l' :
  d2h ep l s = (s', inr l') ->
  dev_mem s' = dev_mem s /\ next_obj s' = next_obj s /\
  Forall2 (copied_back s) l l' /\
  exists objs,
    map devdata (filter copies_back l) = map Buffer objs /\
    log s' = log s ++ map CopyD2H objs /\
    next_event s' = next_event s + length objs /\
    Forall (fun ev => exists tm, event_ms ep ev tm) (seq (next_event s) (length objs)).
Proof.
  revert s s' l'; induction l as [|a l IH]; intros s s' l' H; simpl in H.
  - injection H as <- <-. repeat split; auto. exists []. simpl.
    rewrite app_nil_r, Nat.add_0_r. repeat split; constructor.
  - destruct (hostdata a) as [h|] eqn:Eh.
    + destruct (is_const (desc a)) eqn:Ec.
      * unfold bind in H. destruct (d2h ep l s) as [s1 [e|rest]] eqn:E; [discriminate|].
        unfold ret in H; injection H as <- <-.
        destruct (IH _ _ _ E) as (Hm & Ho & Hf & objs & Hrest).
        replace (filter copies_back (a :: l)) with (filter copies_back l)
          by (cbn [filter]; unfold copies_back; rewrite Eh, Ec; reflexivity).
        repeat split; auto; [constructor; [|exact Hf]; unfold copied_back; rewrite Eh, Ec; auto|].
        exists objs; exact Hrest.
      * unfold bind at 1 in H. unfold enqueue_copy_d2h at 1 in H.
        destruct (devdata a) as [|o n|o|dt v] eqn:Ed; try discriminate.
        cbn [mem_read new_event bind ret fst snd] in H.
        match type of H with context [bind (get_event_time ep ?ev) ?k ?s0] =>
          destruct (get_event_time ep ev s0) as [s1 [err|tm]] eqn:Et;
          [rewrite (bind_inl _ _ _ _ _ Et) in H; discriminate|rewrite (bind_inr _ _ _ _ _ Et) in H] end.
        apply get_event_time_inr in Et as [-> Hms].
        cbv beta in H.
        match type of H with context [bind (d2h ep l) ?k ?s0] =>
          destruct (d2h ep l s0) as [s2 [e|rest]] eqn:E;
          [rewrite (bind_inl _ _ _ _ _ E) in H; discriminate|rewrite (bind_inr _ _ _ _ _ E) in H] end.
        unfold ret in H. injection H as <- <-.
        destruct (IH _ _ _ E) as (Hm & Ho & Hf & objs & Hc & Hlog & Hev & Hall).
        simpl in *. repeat split; auto.
        -- constructor.
           ++ unfold copied_back. rewrite Eh, Ec. simpl.
              repeat split; auto. eexists o, _. split; [exact Ed|].
              split; reflexivity.
           ++ eapply Forall2_impl; [|exact Hf]. intros x y. apply copied_back_mem.
              reflexivity.
        -- exists (o :: objs).
           replace (copies_back a) with true
             by (unfold copies_back; rewrite Eh, Ec; reflexivity).
           simpl. rewrite Ed, Hc. repeat split.
           ++ rewrite Hlog, <- app_assoc; reflexivity.
           ++ lia.
           ++ constructor; [exists tm; exact Hms|exact Hall].
    + unfold bind in H. destruct (d2h ep l s) as [s1 [e|rest]] eqn:E; [discriminate|].
      unfold ret in H; injection H as <- <-.
      destruct (IH _ _ _ E) as (Hm & Ho & Hf & objs & Hrest).
      replace (filter copies_back (a :: l)) with (filter copies_back l)
        by (cbn [filter]; unfold copies_back; rewrite Eh; reflexivity).
      repeat split; auto; [constructor; [|exact Hf]; unfold copied_back; rewrite Eh; auto|].
      exists objs; exact Hrest.
Qed.

(** X13: when [device_to_host] returns, the payload keeps its context,
    NDRange, transfer size and, argument by argument, its descriptor,
    device data, buffer size and flags; a non-const argument with a host
    array has a buffer, and its host array now holds that buffer's device
    contents (keeping its element type); the other arguments keep their
    host data.  One read-back command is enqueued per non-const host array,
    in order, and device memory is left unchanged. *)
Theorem device_to_host_spec ep P s s' P' e :
  device_to_host ep P s = (s', inr (P', e)) ->
  context P' = context P /\ ndrange P' = ndrange P /\
  transfersize P' = transfersize P /\ dev_mem s' = dev_mem s /\
  Forall2 (copied_back s) (args P) (args P') /\
  exists objs,
    map devdata (filter copies_back (args P)) = map Buffer objs /\
    log s' = log s ++ map CopyD2H objs.
Proof.
  unfold device_to_host, bind.
  destruct (d2h ep (args P) s) as [s1 [err|l]] eqn:E; [discriminate|].
  unfold ret; intros H; injection H as <- <- _; simpl.
  destruct (d2h_spec _ _ _ _ _ E) as (Hm & _ & Hf & objs & Hc & Hlog & _).
  repeat split; auto. exists objs; auto.
Qed.

Lemma device_to_host_spec_witness :
  exists s1 P s' P' e,
  create_sequential driver_global 4 st_init = (s1, inr P) /\
  device_to_host profile_2ms P s1 = (s', inr (P', e)) /\
  (context P' = context P /\ ndrange P' = ndrange P /\
  transfersize P' = transfersize P /\ dev_mem s' = dev_mem s1 /\
  Forall2 (copied_back s1) (args P) (args P') /\
  exists objs,
    map devdata (filter copies_back (args P)) = map Buffer objs /\
    log s' = log s1 ++ map CopyD2H objs).
Proof.
  do 5 eexists. split; [eval_lhs|]. split; [eval_lhs|].
  match goal with
  | |- _ /\ _ /\ _ /\ _ /\ Forall2 (copied_back ?s1) (args ?P) (args ?P') /\
       exists objs, _ /\ log ?s2 = _ =>
      eapply (device_to_host_spec profile_2ms P s1 s2 P'); eval_lhs
  end.
Defined.

(** *** [KernelDriver.__call__] *)

Ltac step H :=
  match type of H with
  | bind ?m ?k ?s0 = _ =>
      let E := fresh "E" in
      destruct (m s0) as [?st [?err|?v]] eqn:E;
      [rewrite (bind_inl _ _ _ _ _ E) in H; discriminate
      |rewrite (bind_inr _ _ _ _ _ E) in H; cbv beta zeta in H]
  end.

Lemma clone_inv P s s' P' :
  clone P s = (s', inr P') ->
  context P' = context P /\ ndrange P' = ndrange P /\
  transfersize P' = transfersize P /\ Forall2 (cloned_arg s') (args P) (args P') /\
  log s' = log s /\ stats s' = stats s.
Proof.
  intros H. pose proof (keeps_clone P s) as Hk. rewrite H in Hk. simpl in Hk.
  unfold clone in H. step H. unfold ret in H. injection H as <- <-. simpl.
  destruct (clone_args_spec _ _ _ _ E) as (_ & Hf & _ & _ & Hlog & _).
  repeat split; auto.
Qed.

Lemma h2d_stats ep l e s s' t :
  h2d ep l e s = (s', inr t) -> stats s' = stats s.
Proof. intros H. pose proof (keeps_h2d ep l e s) as Hk. rewrite H in Hk. exact Hk. Qed.

Lemma d2h_stats ep l s s' l' :
  d2h ep l s = (s', inr l') -> stats s' = stats s.
Proof. intros H. pose proof (keeps_d2h ep l s) as Hk. rewrite H in Hk. exact Hk. Qed.

Lemma forall2_compose {A B C} (R1 : A -> B -> Prop) (R2 : B -> C -> Prop)
    (R : A -> C -> Prop) xs ys zs :
  Forall2 R1 xs ys -> Forall2 R2 ys zs ->
  (forall x y z, R1 x y -> R2 y z -> R x z) -> Forall2 R xs zs.
Proof.
  intros H1; revert zs; induction H1 as [|x y xs ys Hxy _ IH]; intros zs H2 HR;
    inversion H2; subst; constructor; eauto.
Qed.

Lemma call_inv ep sa ke driver P s s' P' :
  call ep sa ke driver P s = (s', inr P') ->
  exists n rest t hcopies dcopies,
    ndrange P = n :: rest /\
    wgsizes s' = wgsizes s ++ [Nat.min n 256] /\
    transfers s' = transfers s ++ [transfersize P] /\
    runtimes s' = runtimes s ++ [t] /\
    log s' = log s ++ map CopyH2D hcopies ++ [Launch (ndrange P) (Nat.min n 256)] ++
             map CopyD2H dcopies /\
    context P' = context P /\ ndrange P' = ndrange P /\
    transfersize P' = transfersize P /\
    Forall2 (fun a a' => desc a' = desc a /\
               (copies_back a = false -> hostdata a' = hostdata a)) (args P) (args P').
Proof.
  unfold call. cbv zeta. intros H.
  step H. rename v into out, st into s1.
  destruct (clone_inv _ _ _ _ E) as (Hc & Hn & Ht & Hf & Hlog1 & Hst1).
  unfold host_to_device in H. step H. rename v into t1, st into s2, E0 into E2.
  destruct (h2d_spec _ _ _ _ _ _ E2) as (cs & _ & Hlog2 & _).
  pose proof (h2d_stats _ _ _ _ _ _ E2) as Hst2.
  destruct (sa (map devdata (args out))); [|discriminate].
  rewrite (bind_inr _ _ _ _ _ (eq_refl (s2, inr tt))) in H.
  rewrite Hn in H. destruct (ndrange P) as [|n rest] eqn:EP; [discriminate|].
  rewrite (bind_inr _ _ _ _ _ (eq_refl (s2, inr (Nat.min n 256)))) in H.
  step H. rename v into ev, st into s3, E0 into E3.
  unfold launch in E3. destruct (ke _ _ _ _) as [m|] eqn:Ek; [|discriminate].
  unfold new_event in E3. injection E3 as <- <-.
  step H. rename v into t2, st into s4, E0 into E4.
  apply get_event_time_inr in E4 as [-> _].
  step H. rename v into r, st into s5, E0 into E5.
  unfold device_to_host in E5. step E5. rename v into l', st into s6, E0 into E6.
  unfold ret in E5. injection E5 as <- <-. simpl in H.
  destruct (d2h_spec _ _ _ _ _ E6) as (_ & _ & Hf5 & objs & _ & Hlog5 & _).
  pose proof (d2h_stats _ _ _ _ _ E6) as Hst5.
  unfold ret, record_stats in H. simpl in H. injection H as <- <-.
  unfold stats in Hst1, Hst2, Hst5; simpl in Hst5.
  injection Hst1 as Hw1 Ht1 Hr1. injection Hst2 as Hw2 Ht2 Hr2.
  injection Hst5 as Hw5 Ht5 Hr5.
  exists n, rest, (0 + t1 + t2 + 0)%Q, (map fst cs), objs. simpl.
  rewrite Hw5, Ht5, Hr5, Hw2, Ht2, Hr2, Hw1, Ht1, Hr1.
  repeat split; try reflexivity; try congruence.
  - rewrite Hlog5; simpl. rewrite Hlog2, Hlog1, map_map, <- !app_assoc. reflexivity.
  - eapply forall2_compose; [exact Hf|exact Hf5|].
    intros a a1 a2 (Hd & Hh & _) (Hd' & _ & _ & _ & Hh').
    split; [congruence|]. intros Hcb. unfold copies_back in Hcb.
    rewrite Hh, Hd in Hh'.
    destruct (hostdata a) as [h|]; [|exact Hh'].
    destruct (is_const (desc a)); [exact Hh'|discriminate].
Qed.

(** X14: when [__call__] returns, its NDRange has a first dimension [n];
    it has appended [min(n, 256)] to the workgroup sizes, the input
    payload's transfer size to the transfers and one runtime; it has
    enqueued, in this order, host-to-device copies, one kernel launch with
    the payload's NDRange and local size [min(n, 256)], and read-backs.  The
    output keeps the context, NDRange, transfer size and descriptors of the
    input, and the host data of every argument that is not a non-const host
    array. *)
Theorem call_spec ep sa ke driver P s s' P' :
  call ep sa ke driver P s = (s', inr P') ->
  exists n rest t hcopies dcopies,
    ndrange P = n :: rest /\
    wgsizes s' = wgsizes s ++ [Nat.min n 256] /\
    transfers s' = transfers s ++ [transfersize P] /\
    runtimes s' = runtimes s ++ [t] /\
    log s' = log s ++ map CopyH2D hcopies ++ [Launch (ndrange P) (Nat.min n 256)] ++
             map CopyD2H dcopies /\
    context P' = context P /\ ndrange P' = ndrange P /\
    transfersize P' = transfersize P /\
    Forall2 (fun a a' => desc a' = desc a /\
               (copies_back a = false -> hostdata a' = hostdata a)) (args P) (args P').
Proof. exact (call_inv ep sa ke driver P s s' P'). Qed.

Lemma call_spec_witness :
  exists s1 P s' P',
  create_sequential driver_global 4 st_init = (s1, inr P) /\
  call profile_2ms accept_args kernel_inc driver_global P s1 = (s', inr P') /\
  exists n rest t hcopies dcopies,
    ndrange P = n :: rest /\
    wgsizes s' = wgsizes s1 ++ [Nat.min n 256] /\
    transfers s' = transfers s1 ++ [transfersize P] /\
    runtimes s' = runtimes s1 ++ [t] /\
    log s' = log s1 ++ map CopyH2D hcopies ++ [Launch (ndrange P) (Nat.min n 256)] ++
             map CopyD2H dcopies /\
    context P' = context P /\ ndrange P' = ndrange P /\
    transfersize P' = transfersize P /\
    Forall2 (fun a a' => desc a' = desc a /\
               (copies_back a = false -> hostdata a' = hostdata a)) (args P) (args P').
Proof.
  do 4 eexists. split; [eval_lhs|]. split; [eval_lhs|].
  match goal with
  | |- exists n rest t hcopies dcopies, ndrange ?P = _ /\ wgsizes ?s2 = wgsizes ?s1 ++ _ /\ _ /\ _ /\ _ /\
       context ?P' = _ /\ _ =>
      apply (call_spec profile_2ms accept_args kernel_inc driver_global P s1 s2 P'); eval_lhs
  end.
Defined.

(** *** [validate] *)





















(** A computation whose exceptions are never [Diverged]. *)
Definition no_div {A} (m : M A) : Prop :=
  forall s, match m s with
            | (_, inl e) => e <> Diverged
            | (_, inr _) => True
            end.

Lemma no_div_ret {A} (x : A) : no_div (ret x).
Proof. intros s; exact I. Qed.

Lemma no_div_raise {A} e : e <> Diverged -> no_div (A := A) (raise e).
Proof. intros H s; exact H. Qed.

Lemma no_div_bind {A B} (m : M A) (k : A -> M B) :
  no_div m -> (forall x, no_div (k x)) -> no_div (bind m k).
Proof.
  intros Hm Hk s; unfold bind. specialize (Hm s).
  destruct (m s) as [s1 [e|x]]; [exact Hm|apply Hk].
Qed.

Lemma no_div_alloc : no_div alloc.
Proof. intros s; exact I. Qed.

Lemma no_div_mem_write o v : no_div (mem_write o v).
Proof. intros s; exact I. Qed.

Lemma no_div_mem_read o : no_div (mem_read o).
Proof. intros s; exact I. Qed.

Lemma no_div_new_event c : no_div (new_event c).
Proof. intros s; exact I. Qed.

Create HintDb no_div.
#[local] Hint Resolve no_div_ret no_div_alloc no_div_mem_write no_div_mem_read
  no_div_new_event : no_div.

Ltac no_div_tac :=
  repeat match goal with
  | |- no_div (bind _ _) => apply no_div_bind; [|intro; cbv beta zeta]
  | |- no_div (raise _) => apply no_div_raise; discriminate
  | |- no_div (match ?x with _ => _ end) => destruct x
  | |- no_div (if ?b then _ else _) => destruct b
  | |- no_div _ => solve [eauto with no_div]
  end.

Lemma no_div_get_event_time ep ev : no_div (get_event_time ep ev).
Proof. unfold get_event_time. no_div_tac. Qed.

Lemma no_div_cl_buffer h : no_div (cl_buffer h).
Proof. unfold cl_buffer. no_div_tac. Qed.

Lemma no_div_clone P : no_div (clone P).
Proof.
  unfold clone. no_div_tac.
  induction (args P) as [|a l IH]; simpl; no_div_tac; auto using no_div_cl_buffer.
Qed.

Lemma no_div_h2d ep l e : no_div (h2d ep l e).
Proof.
  revert e; induction l as [|a l IH]; intros e; simpl; no_div_tac; auto.
  - unfold enqueue_copy_h2d. no_div_tac.
  - apply no_div_get_event_time.
Qed.

Lemma no_div_d2h ep l : no_div (d2h ep l).
Proof.
  induction l as [|a l IH]; simpl; no_div_tac; auto.
  - unfold enqueue_copy_d2h. no_div_tac.
  - apply no_div_get_event_time.
Qed.

Lemma no_div_launch ke k g n : no_div (launch ke k g n).
Proof. intros s; unfold launch. destruct ke; [exact I|discriminate]. Qed.

Lemma no_div_call ep sa ke driver P : no_div (call ep sa ke driver P).
Proof.
  unfold call. cbv zeta. apply no_div_bind; [apply no_div_clone|intros out].
  apply no_div_bind; [apply no_div_h2d|intros t1].
  unfold device_to_host, record_stats. no_div_tac.
  all: first [apply no_div_launch | apply no_div_get_event_time | apply no_div_d2h
             | intros s; exact I].
Qed.

Lemma keeps_create_random rv driver size : keeps (create_random rv driver size).
Proof.
  unfold create_random, create_payload. apply keeps_bind; [|intros; apply keeps_ret].
  intros s. unfold wrap_bad_args.
  assert (Hk : forall ds t, keeps (create_args (np_random_rand rv) size ds t)).
  { induction ds as [|d ds IH]; intros t; simpl; keeps_tac; auto.
    all: try apply keeps_cl_buffer; intros s0; reflexivity. }
  specialize (Hk (prototype driver) 0 s).
  destruct (create_args _ _ _ _ s) as [s1 [e|r]]; exact Hk.
Qed.

Lemma create_random_inv rv driver size s s' P :
  create_random rv driver size s = (s', inr P) -> ndrange P = [size].
Proof.
  unfold create_random, create_payload, bind, wrap_bad_args.
  destruct (create_args _ _ _ _ s) as [s1 [e|r]]; [discriminate|].
  unfold ret. intros H; injection H as _ <-. reflexivity.
Qed.

Lemma create_random_err rv driver size s s' e :
  create_random rv driver size s = (s', inl e) -> e = E_BAD_ARGS.
Proof.
  unfold create_random, create_payload, bind, wrap_bad_args.
  destruct (create_args _ _ _ _ s) as [s1 [e'|r]]; [|discriminate].
  intros H; injection H as _ <-. reflexivity.
Qed.

Lemma profile_loop_inv ep sa ke fuel driver P m n rest s :
  ndrange P = n :: rest -> m - length (runtimes s) <= fuel ->
  match profile_loop ep sa ke fuel driver P m s with
  | (s', inr _) =>
      length (runtimes s') = length (runtimes s) + (m - length (runtimes s)) /\
      wgsizes s' = wgsizes s ++ repeat (Nat.min n 256) (m - length (runtimes s)) /\
      transfers s' = transfers s ++ repeat (transfersize P) (m - length (runtimes s))
  | (_, inl e) => e <> Diverged
  end.
Proof.
  intros HP. revert s; induction fuel as [|f IH]; intros s Hf; simpl.
  - destruct (Nat.ltb_spec (length (runtimes s)) m); [lia|].
    replace (m - length (runtimes s)) with 0 by lia. simpl.
    rewrite !app_nil_r. repeat split; lia.
  - destruct (Nat.ltb_spec (length (runtimes s)) m) as [Hlt|Hge].
    + unfold bind. pose proof (no_div_call ep sa ke driver P s) as Hnd.
      destruct (call ep sa ke driver P s) as [s1 [e|P']] eqn:Ec; [exact Hnd|].
      destruct (call_inv _ _ _ _ _ _ _ _ Ec)
        as (n' & rest' & t & hc & dc & HP' & Hw & Ht & Hr & _).
      rewrite HP in HP'. injection HP' as <- _.
      assert (Hl : length (runtimes s1) = S (length (runtimes s))).
      { rewrite Hr, length_app; simpl; lia. }
      specialize (IH s1 ltac:(lia)).
      destruct (profile_loop ep sa ke f driver P m s1) as [s2 [e|u]]; [exact IH|].
      destruct IH as (IH1 & IH2 & IH3).
      replace (m - length (runtimes s)) with (S (m - length (runtimes s1))) by lia.
      rewrite IH2, IH3, Hw, Ht, <- !app_assoc. repeat split; try reflexivity. lia.
    + replace (m - length (runtimes s)) with 0 by lia. simpl.
      rewrite !app_nil_r. repeat split; lia.
Qed.

(** X17: [profile] without validation, on a driver that has not run yet,
    never loops forever (it raises no [Diverged]: [min_num_iterations]
    rounds of the loop always suffice); when it returns, the driver has run exactly
    [min_num_iterations] times, every recorded workgroup size is
    [min(size, 256)] and every recorded transfer is the transfer size of
    the random payload it created. *)
Theorem profile_fresh_spec ep sa ke rv driver size m fuel s :
  match profile ep sa ke rv driver size false m fuel (driver_init s) with
  | (s', inr _) =>
      exists P, snd (create_random rv driver size (driver_init s)) = inr P /\
        length (runtimes s') = m /\
        wgsizes s' = repeat (Nat.min size 256) m /\
        transfers s' = repeat (transfersize P) m
  | (_, inl e) => e <> Diverged
  end.
Proof.
  unfold profile. rewrite (bind_inr _ _ _ _ _ (eq_refl (driver_init s, inr tt))).
  unfold bind at 1.
  pose proof (keeps_create_random rv driver size (driver_init s)) as Hk.
  destruct (create_random rv driver size (driver_init s)) as [s1 [e|P]] eqn:Ec.
  - apply create_random_err in Ec. subst e. discriminate.
  - simpl in Hk. unfold stats in Hk; simpl in Hk. injection Hk as Hw Ht Hr.
    pose proof (create_random_inv _ _ _ _ _ _ Ec) as HP.
    pose proof (profile_loop_inv ep sa ke m driver P m size [] s1 HP) as H.
    rewrite Hr in H. simpl in H. rewrite Nat.sub_0_r in H.
    specialize (H (le_n m)).
    destruct (profile_loop ep sa ke m driver P m s1) as [s2 [e|u]]; [exact H|].
    destruct H as (H1 & H2 & H3). rewrite Hw in H2; rewrite Ht in H3.
    exists P. repeat split; assumption.
Qed.

End CLDriveExtra.
